(** * Porteight tracking proxy: a shallow embedding of the request engine

  The TypeScript sources embedded here are
  - [auth.ts]           (cookie / bearer extraction, [authMiddleware]),
  - [dragonfly.ts]      ([DragonflyClient.getToken] / [setToken]),
  - [planetscale.ts]    ([getTruckAccessForUser]),
  - [truckFetcher.ts]   ([getTruckRegistrationNos]),
  - [tinybird.ts]       ([generateTinybirdToken]),
  - [connectionPool.ts] ([RedisConnectionPool]),
  - [index.ts]          (the [app.all('*')] proxy handler).

  Asynchronous code is embedded by cutting it at its [await]s: every
  synchronous segment is one atomic step (JavaScript runs them to
  completion on one thread), and the order in which pending segments
  run is chosen by a schedule.  Everything outside the repository
  (the Redis server, the PlanetScale database, the Tinybird backend, the
  [jsonwebtoken] and [JSON] built-ins) is either modelled by its
  documented behaviour or taken as a parameter. *)

From Stdlib Require Import ZArith Ascii String List.
From Stdlib Require PrimFloat.
From stdpp Require Import base option gmap strings list fin_maps pretty sorting.

Local Open Scope Z_scope.

(** ** JavaScript values and helpers *)
Module Js.

(** Truthiness of a [string | undefined | null]: [undefined], [null] and
    the empty string are falsy. *)
Definition truthy (v : option string) : bool :=
  match v with
  | Some s => negb (String.eqb s "")
  | None => false
  end.

(** [a || b] on such values. *)
Definition or_else (a b : option string) : option string :=
  if truthy a then a else b.

(** [String.prototype.toLowerCase], on the ASCII letters that can occur in
    header names. *)
Definition lower_ascii (c : ascii) : ascii :=
  let n := nat_of_ascii c in
  if (Nat.leb 65 n && Nat.leb n 90)%bool then ascii_of_nat (n + 32) else c.

Fixpoint toLowerCase (s : string) : string :=
  match s with
  | EmptyString => EmptyString
  | String c r => String (lower_ascii c) (toLowerCase r)
  end.

(** [s.startsWith(p)] and [s.substring(n)]. *)
Definition startsWith (p s : string) : bool := String.prefix p s.

Definition substring_from (n : nat) (s : string) : string :=
  String.substring n (String.length s - n) s.

(** [hay.includes(needle)] *)
Fixpoint includes (needle hay : string) : bool :=
  if String.prefix needle hay then true
  else match hay with
       | EmptyString => false
       | String _ rest => includes needle rest
       end.

(** The exception classes the sources throw and test with [instanceof]. *)
Inductive exn :=
| Error (message : string)
| AuthError (message : string) (statusCode : Z)
| TinybirdError (message : string) (statusCode : option Z)
| PlanetScaleError (message : string)
| DragonflyError (message : string)
| JsonWebTokenError (message : string)
| TokenExpiredError (message : string)
| AxiosError (message : string) (response_status : option Z)
             (response_data_error : option string)
| NotAnError.

(** [error instanceof Error ? error.message : 'Unknown error'] *)
Definition message_or_unknown (e : exn) : string :=
  match e with
  | Error m | AuthError m _ | TinybirdError m _ | PlanetScaleError m
  | DragonflyError m | JsonWebTokenError m | TokenExpiredError m
  | AxiosError m _ _ => m
  | NotAnError => "Unknown error"
  end.

(** Outcome of a call that may throw. *)
Inductive result (A : Type) :=
| Ok (a : A)
| Throw (e : exn).
Arguments Ok {A} a.
Arguments Throw {A} e.

(** [n || 500] on an optional status code ([0] is falsy). *)
Definition status_or_500 (n : option Z) : Z :=
  match n with
  | Some k => if Z.eqb k 0 then 500 else k
  | None => 500
  end.

End Js.
Export Js.

(** ** The Redis-compatible cache server

  One key space, shared by every client connection (the pool and the
  singleton [dragonflyClient] connect to the same [DRAGONFLY_URL]).  An
  entry carries the instant, in milliseconds, at which it lapses. *)
Module Redis.

Record entry := Entry { value : string; expires_at : Z }.

Abbreviation store := (gmap string entry).

(** [GET key] at instant [now]. *)
Definition get (st : store) (now : Z) (key : string) : option string :=
  match st !! key with
  | Some e => if Z.ltb now (expires_at e) then Some (value e) else None
  | None => None
  end.

(** [SETEX key seconds value] at instant [now]. *)
Definition setex (st : store) (now : Z) (key : string) (seconds : Z)
    (v : string) : store :=
  <[key := Entry v (now + seconds * 1000)]> st.

(** [DEL key]. *)
Definition del (st : store) (key : string) : store := delete key st.

End Redis.

(** ** Process environment and external libraries *)

Record Env := {
  NODE_ENV : option string;
  JWT_SECRET : option string;
  TINYBIRD_WORKSPACE_ID : option string;
  TINYBIRD_SIGNING_KEY : option string;
  TINYBIRD_API_URL : option string
}.

(** A decoded identity assertion: the [userId] claim and the other claims. *)
Record Claims := {
  claim_userId : option string;
  claim_others : gmap string string
}.

(** The credential payload of [tinybird.ts] ([TinybirdJWTPayload]). *)
Record Scope := {
  scope_type : string;
  scope_resource : string;
  fixed_registrationNo : list string
}.

Record TinybirdJWTPayload := {
  workspace_id : string;
  name : string;
  exp : Z;
  scopes : list Scope;
  limits_rps : Z
}.

(** Library functions the sources call: [jwt.verify], [jwt.sign],
  [JSON.stringify] and [JSON.parse] on string arrays,
  [Date.prototype.toISOString] and [URLSearchParams.prototype.toString]. *)
Class Externals := {
  jwt_verify : string -> string -> result Claims;
  jwt_sign : TinybirdJWTPayload -> string -> result string;
  JSON_stringify : list string -> string;
  JSON_parse : string -> result (list string);
  toISOString : Z -> string;
  URLSearchParams_toString : list (string * string) -> string
}.

(** ** HTTP requests and responses *)

Record Request := {
  req_method : string;
  req_path : string;
  req_query : list (string * string);
(** parsed cookie jar, as [getCookie] reads it *)
  req_cookies : gmap string string;
(** [c.req.header()]: header names as the framework delivers them *)
  req_headers : gmap string string;
(** the raw body, as [c.req.text()] returns it *)
  req_body : string
}.

(** [c.req.header(name)]: the lookup is case-insensitive. *)
Definition req_header (r : Request) (name : string) : option string :=
  req_headers r !! toLowerCase name.

Definition getCookie (r : Request) (name : string) : option string :=
  req_cookies r !! name.

(** A response body: a JSON object literal built by the proxy itself, or
  the backend's data passed on. *)
Inductive Body :=
| JsonObject (fields : list (string * string))
| UpstreamData (data : string).

Record Response := {
  res_status : Z;
  res_body : Body;
  res_headers : gmap string string
}.

Definition json (fields : list (string * string)) (status : Z) : Response :=
  {| res_status := status; res_body := JsonObject fields; res_headers := ∅ |}.

(** ** auth.ts *)
Module Auth.

Record AuthUser := { userId : string; user_claims : Claims }.

(** Lines 24-32: the cookies, then the bearer header. *)
Definition cookieToken (r : Request) : option string :=
  or_else (or_else (getCookie r "auth_token") (getCookie r "jwt"))
          (getCookie r "access_token").

Definition bearerToken (r : Request) : option string :=
  match req_header r "Authorization" with
  | Some authHeader =>
      if (truthy (Some authHeader) && startsWith "Bearer " authHeader)%bool
      then Some (substring_from 7 authHeader)
      else None
  | None => None
  end.

Definition extractToken (r : Request) : option string :=
  let token := cookieToken r in
  if negb (truthy token) then
    match bearerToken r with
    | Some t => Some t
    | None => token
    end
  else token.

(** The [try] block of [authMiddleware]: the verified user, or the
    exception thrown. *)
Definition authenticate `{Externals} (env : Env) (r : Request)
    : result AuthUser :=
  let token := extractToken r in
  if negb (truthy token) then
    Throw (AuthError "Authentication required. Please provide a valid JWT token in cookies or Authorization header." 401)
  else
    if negb (truthy (JWT_SECRET env)) then
      Throw (AuthError "JWT_SECRET environment variable is not configured" 500)
    else
      match jwt_verify (default "" token) (default "" (JWT_SECRET env)) with
      | Throw e => Throw e
      | Ok decoded =>
          if negb (truthy (claim_userId decoded)) then
            Throw (AuthError "Invalid token: userId not found in JWT payload" 401)
          else
            Ok {| userId := default "" (claim_userId decoded);
                  user_claims := decoded |}
      end.

(** [TokenExpiredError] extends [JsonWebTokenError] in [jsonwebtoken]. *)
Definition instanceof_JsonWebTokenError (e : exn) : bool :=
  match e with
  | JsonWebTokenError _ | TokenExpiredError _ => true
  | _ => false
  end.

Definition instanceof_TokenExpiredError (e : exn) : bool :=
  match e with
  | TokenExpiredError _ => true
  | _ => false
  end.

(** The [catch] block: the error response for a thrown exception. *)
Definition errorResponse `{Externals} (now : Z) (e : exn) : Response :=
  match e with
  | AuthError m sc =>
      json [("error", m); ("code", "AUTH_ERROR");
            ("timestamp", toISOString now)] sc
  | _ =>
      if instanceof_JsonWebTokenError e then
        json [("error", "Invalid authentication token format or signature");
              ("code", "INVALID_TOKEN");
              ("timestamp", toISOString now)] 401
      else if instanceof_TokenExpiredError e then
        json [("error", "Authentication token has expired. Please log in again.");
              ("code", "TOKEN_EXPIRED");
              ("timestamp", toISOString now)] 401
      else
        json [("error", "Internal authentication error");
              ("code", "AUTH_INTERNAL_ERROR");
              ("timestamp", toISOString now)] 500
  end.


End Auth.

(** ** Effects: the shared world and a state-and-exception monad

    The world holds the Redis key space, the lines written with
    [console.warn], and a ghost counter of [generateTinybirdToken]
    invocations.  The oracle fixes what the outside does during one
    request: which cache commands fail, what the database answers, what
    the backend answers. *)

Record World := {
  cache : Redis.store;
  warnings : list string;
  mints : nat
}.

Record AxiosRequest := {
  ax_method : string;
  ax_url : string;
  ax_headers : gmap string string;
  ax_data : option string
}.

Record AxiosResponse := {
  ax_status : Z;
  ax_response_data : string;
  ax_response_headers : gmap string string
}.

Record Oracle := {
  (** [redisPool.execute] around [GET] / [SETEX]: [Some e] when it rejects
      (pool timeout, backend error) *)
  pool_lookup_fault : option exn;
  pool_store_fault : option exn;
  (** commands of the singleton [dragonflyClient] *)
  dragonfly_get_fault : option exn;
  dragonfly_setex_fault : option exn;
  (** [conn.execute(query, [userId])]: the [truck_registration_no] column of
      the rows, [None] for an absent [rows] *)
  planetscale_execute : string -> result (option (list string));
  (** [c.req.json()] on the raw body *)
  body_json : string -> result string;
  (** the backend, as seen through [axios] *)
  axios : AxiosRequest -> result AxiosResponse
}.

Module Eff.

Definition M (A : Type) : Type := World -> result A * World.

Definition ret {A} (a : A) : M A := fun w => (Ok a, w).

Definition throw {A} (e : exn) : M A := fun w => (Throw e, w).

Definition bind {A B} (m : M A) (k : A -> M B) : M B :=
  fun w =>
    match m w with
    | (Ok a, w') => k a w'
    | (Throw e, w') => (Throw e, w')
    end.

(** [try { m } catch (e) { h e }] *)
Definition try_catch {A} (m : M A) (h : exn -> M A) : M A :=
  fun w =>
    match m w with
    | (Ok a, w') => (Ok a, w')
    | (Throw e, w') => h e w'
    end.

(** lift the outcome of an external call *)
Definition lift {A} (r : result A) : M A := fun w => (r, w).

Definition console_warn (line : string) : M unit :=
  fun w => (Ok tt, {| cache := cache w; warnings := warnings w ++ [line];
                      mints := mints w |}).

(** a Redis command issued over a client whose fault is [fault] *)
Definition redis_get (fault : option exn) (now : Z) (key : string)
    : M (option string) :=
  fun w =>
    match fault with
    | Some e => (Throw e, w)
    | None => (Ok (Redis.get (cache w) now key), w)
    end.

Definition redis_setex (fault : option exn) (now : Z) (key : string)
    (seconds : Z) (v : string) : M unit :=
  fun w =>
    match fault with
    | Some e => (Throw e, w)
    | None => (Ok tt, {| cache := Redis.setex (cache w) now key seconds v;
                         warnings := warnings w; mints := mints w |})
    end.

Definition count_mint : M unit :=
  fun w => (Ok tt, {| cache := cache w; warnings := warnings w;
                      mints := S (mints w) |}).

Definition redis_del (fault : option exn) (key : string) : M unit :=
  fun w =>
    match fault with
    | Some e => (Throw e, w)
    | None => (Ok tt, {| cache := Redis.del (cache w) key;
                         warnings := warnings w; mints := mints w |})
    end.

End Eff.
Import Eff.

Notation "'let!' x ':=' m 'in' k" := (bind m (fun x => k))
  (at level 10, x name, m at level 100, k at level 200).
Notation "'do!' m 'in' k" := (bind m (fun _ => k))
  (at level 10, m at level 100, k at level 200).

(** ** dragonfly.ts *)
Module Dragonfly.

(** [getToken(userId)] *)
Definition getToken (o : Oracle) (now : Z) (userId : string)
    : M (option string) :=
  try_catch
    (let cacheKey := "tinybird_token:" +:+ userId in
     let! token := redis_get (dragonfly_get_fault o) now cacheKey in
     if truthy token then ret token else ret None)
    (fun error =>
       throw (DragonflyError ("Failed to get token from cache: "
                              +:+ message_or_unknown error))).

(** [setToken(userId, token, ttlInSeconds = 3600)] *)
Definition setToken (o : Oracle) (now : Z) (userId token : string)
    (ttlInSeconds : Z) : M unit :=
  try_catch
    (let cacheKey := "tinybird_token:" +:+ userId in
     redis_setex (dragonfly_setex_fault o) now cacheKey ttlInSeconds token)
    (fun error =>
       throw (DragonflyError ("Failed to set token in cache: "
                              +:+ message_or_unknown error))).

(** [deleteToken(userId)]; [del_fault] is what [this.redis.del] rejects
    with, if it does. *)
Definition deleteToken (del_fault : option exn) (userId : string) : M unit :=
  try_catch
    (let cacheKey := "tinybird_token:" +:+ userId in
     redis_del del_fault cacheKey)
    (fun error =>
       throw (DragonflyError ("Failed to delete token from cache: "
                              +:+ message_or_unknown error))).

End Dragonfly.

(** ** planetscale.ts *)
Module PlanetScale.

(** [getTruckAccessForUser(userId)] *)
Definition getTruckAccessForUser (o : Oracle) (userId : string)
    : M (list string) :=
  try_catch
    (let! rows := lift (planetscale_execute o userId) in
     match rows with
     | None | Some [] => ret []
     | Some registrationNumbers => ret registrationNumbers
     end)
    (fun error =>
       throw (PlanetScaleError ("Failed to fetch truck access: "
                                +:+ message_or_unknown error))).

(** [userHasMultipleTruckAccess(userId, truckRegistrationNos)];
    [batch_execute] is [conn.execute(query, [userId, ...truckRegistrationNos])],
    giving the [truck_registration_no] column of the rows. *)
Definition userHasMultipleTruckAccess
    (batch_execute : string -> list string -> result (option (list string)))
    (userId : string) (truckRegistrationNos : list string)
    : result (gmap string bool) :=
  if Nat.eqb (length truckRegistrationNos) 0 then Ok ∅
  else
    match batch_execute userId truckRegistrationNos with
    | Throw error =>
        Throw (PlanetScaleError ("Failed to batch check truck access: "
                                 +:+ message_or_unknown error))
    | Ok rows =>
        let accessMap : gmap string bool :=
          foldl (fun m regNo => <[regNo := false]> m) ∅ truckRegistrationNos in
        match rows with
        | Some found =>
            if Nat.ltb 0 (length found)
            then Ok (foldl (fun m row => <[row := true]> m) accessMap found)
            else Ok accessMap
        | None => Ok accessMap
        end
    end.

End PlanetScale.

(** ** truckFetcher.ts *)
Module TruckFetcher.

Definition cacheTTL : Z := 300.

Definition fallbackTrucks : list string := ["HT56E4521"; "HR05G5555"].

(** [process.env.NODE_ENV === 'development'] *)
Definition is_development (env : Env) : bool :=
  match NODE_ENV env with
  | Some v => String.eqb v "development"
  | None => false
  end.

(** [getTruckRegistrationNos(userId)], first [try]: the cached set, if the
    cache has one that parses. *)
Definition readCachedTrucks `{Externals} (o : Oracle) (now : Z)
    (cacheKey : string) : M (option (list string)) :=
  try_catch
    (let! cachedData := Dragonfly.getToken o now cacheKey in
     match cachedData with
     | Some data =>
         if truthy cachedData
         then (let! parsed := lift (JSON_parse data) in ret (Some parsed))
         else ret None
     | None => ret None
     end)
    (fun error =>
       do! console_warn "Failed to check cache for truck access:" in
       ret None).

(** Second [try]: the database, the write-back, and the development
    fallback. *)
Definition fetchTrucks `{Externals} (env : Env) (o : Oracle) (now : Z)
    (userId cacheKey : string) : M (list string) :=
  try_catch
    (let! truckRegistrationNos := PlanetScale.getTruckAccessForUser o userId in
     do! (if Nat.ltb 0 (length truckRegistrationNos) then
            try_catch
              (Dragonfly.setToken o now cacheKey
                 (JSON_stringify truckRegistrationNos) cacheTTL)
              (fun error => console_warn "Failed to cache truck access:")
          else ret tt) in
     ret truckRegistrationNos)
    (fun error =>
       if is_development env then
         do! console_warn "Using fallback truck registration numbers for development" in
         ret fallbackTrucks
       else throw error).

(** [getTruckRegistrationNos(userId)] *)
Definition getTruckRegistrationNos `{Externals} (env : Env) (o : Oracle)
    (now : Z) (userId : string) : M (list string) :=
  let cacheKey := "truck_access:" +:+ userId in
  let! cached := readCachedTrucks o now cacheKey in
  match cached with
  | Some parsed => ret parsed
  | None => fetchTrucks env o now userId cacheKey
  end.

(** [invalidateTruckAccessCache(userId)]; the [catch] only writes to
    [console.error], which the world does not record. *)
Definition invalidateTruckAccessCache (del_fault : option exn)
    (userId : string) : M unit :=
  let cacheKey := "truck_access:" +:+ userId in
  try_catch
    (Dragonfly.deleteToken del_fault cacheKey)
    (fun error => ret tt).

End TruckFetcher.

(** ** tinybird.ts *)
Module Tinybird.

Definition validity : Z := 3600.

Definition make_payload (workspace userId : string) (now : Z)
    (truckRegistrationNos : list string) : TinybirdJWTPayload :=
  {| workspace_id := workspace;
     name := "user_" +:+ userId +:+ "_jwt";
     exp := now / 1000 + validity;
     scopes :=
       [ {| scope_type := "PIPES:READ";
            scope_resource := "truck_history_endpoint";
            fixed_registrationNo := truckRegistrationNos |};
         {| scope_type := "PIPES:READ";
            scope_resource := "truck_location_endpoint";
            fixed_registrationNo := truckRegistrationNos |} ];
     limits_rps := 1 |}.

(** The [catch] block of [generateTinybirdToken]: what it throws for a
    caught [error]. *)
Definition rethrown (error : exn) : exn :=
  match error with
  | TinybirdError _ _ => error
  | _ =>
      if Auth.instanceof_JsonWebTokenError error then
        TinybirdError ("JWT generation error: " +:+ message_or_unknown error)
                      (Some 500)
      else
        TinybirdError ("Failed to generate Tinybird token: "
                       +:+ message_or_unknown error) (Some 500)
  end.

(** [generateTinybirdToken(userId)]; [now] is [Date.now()], and the instant
    at which the cache commands of the truck fetcher are served. *)
Definition generateTinybirdToken `{Externals} (env : Env) (o : Oracle)
    (now : Z) (userId : string) : M string :=
  do! count_mint in
  try_catch
    (if negb (truthy (TINYBIRD_WORKSPACE_ID env)) then
       throw (TinybirdError "TINYBIRD_WORKSPACE_ID environment variable is not configured" (Some 500))
     else if negb (truthy (TINYBIRD_SIGNING_KEY env)) then
       throw (TinybirdError "TINYBIRD_SIGNING_KEY environment variable is not configured" (Some 500))
     else
       let! truckRegistrationNos := TruckFetcher.getTruckRegistrationNos env o now userId in
       if Nat.eqb (length truckRegistrationNos) 0 then
         throw (TinybirdError ("No truck registration numbers found for user " +:+ userId)
                              (Some 404))
       else
         let jwtPayload :=
           make_payload (default "" (TINYBIRD_WORKSPACE_ID env)) userId now
                        truckRegistrationNos in
         let! token := lift (jwt_sign jwtPayload (default "" (TINYBIRD_SIGNING_KEY env))) in
         ret token)
    (fun error => throw (rethrown error)).

End Tinybird.

(** ** index.ts: the proxy handler *)
Module Proxy.

Definition token_key (userId : string) : string := "tinybird_token:" +:+ userId.

Definition tokenTTL : Z := 3600.

(** Lines 152-169: the cache lookup; [tinybirdToken] stays [null] when the
    lookup throws. *)
Definition lookupToken (o : Oracle) (now : Z) (userId : string)
    : M (option string) :=
  try_catch
    (redis_get (pool_lookup_fault o) now (token_key userId))
    (fun error =>
       do! console_warn "Cache lookup failed, proceeding without cache:" in
       ret None).

(** Lines 180-187: caching the fresh token. *)
Definition storeToken (o : Oracle) (now : Z) (userId token : string) : M unit :=
  try_catch
    (redis_setex (pool_store_fault o) now (token_key userId) tokenTTL token)
    (fun error => console_warn "Failed to cache token, proceeding anyway:").

(** Lines 221-237: the outgoing headers.  [c.req.header()] is a
    [Record<string, string>], so the [typeof value === 'string'] conjunct
    holds for every entry. *)
Definition forwardable (key : string) : bool :=
  let lowerKey := toLowerCase key in
  (negb (String.eqb lowerKey "authorization")
   && negb (String.eqb lowerKey "host")
   && negb (String.eqb lowerKey "cookie"))%bool.

Definition initialHeaders (tinybirdToken : string) : gmap string string :=
  <["Content-Type" := "application/json"]>
    (<["Authorization" := "Bearer " +:+ tinybirdToken]> ∅).

Definition copyHeader (headers : gmap string string) (kv : string * string)
    : gmap string string :=
  if forwardable kv.1 then <[kv.1 := kv.2]> headers else headers.

Definition buildHeaders (tinybirdToken : string)
    (requestHeaders : gmap string string) : gmap string string :=
  foldl copyHeader (initialHeaders tinybirdToken) (map_to_list requestHeaders).

(** Lines 239-252: the request body. *)
Definition readBody (o : Oracle) (r : Request) : M (option string) :=
  if (negb (String.eqb (req_method r) "GET")
      && negb (String.eqb (req_method r) "HEAD"))%bool then
    try_catch
      (match req_header r "content-type" with
       | Some contentType =>
           if includes "application/json" contentType
           then (let! parsed := lift (body_json o (req_body r)) in
                 ret (Some parsed))
           else ret (Some (req_body r))
       | None => ret (Some (req_body r))
       end)
      (fun error =>
         do! console_warn "Failed to parse request body:" in ret None)
  else ret None.

(** Lines 275-284: the response handed back. *)
Definition keepResponseHeader (key : string) : bool :=
  negb (String.eqb (toLowerCase key) "set-cookie").

Definition forwardResponse (response : AxiosResponse) : Response :=
  {| res_status := ax_status response;
     res_body := UpstreamData (ax_response_data response);
     res_headers :=
       filter (fun kv => keepResponseHeader kv.1 = true)
              (ax_response_headers response) |}.

(** Lines 201-290: forwarding with the resolved token. *)
Definition forward `{Externals} (env : Env) (o : Oracle) (r : Request)
    (tinybirdToken : string) : M Response :=
  if negb (truthy (TINYBIRD_API_URL env)) then
    ret (json [("error", "TINYBIRD_API_URL not configured")] 500)
  else
    let targetUrl := default "" (TINYBIRD_API_URL env) +:+ req_path r in
    let searchParams := URLSearchParams_toString (req_query r) in
    let finalUrl :=
      if truthy (Some searchParams)
      then targetUrl +:+ "?" +:+ searchParams else targetUrl in
    let headers := buildHeaders tinybirdToken (req_headers r) in
    let! requestBody := readBody o r in
    let! response :=
      lift (axios o {| ax_method := toLowerCase (req_method r);
                       ax_url := finalUrl;
                       ax_headers := headers;
                       ax_data := requestBody |}) in
    ret (forwardResponse response).

(** Lines 292-301: the outer [catch]. *)
Definition proxyCatch (error : exn) : Response :=
  match error with
  | AxiosError m status data_error =>
      json [("error", "Tinybird request failed: "
                      +:+ default "" (or_else data_error (Some m)))]
           (status_or_500 status)
  | _ => json [("error", "Internal server error")] 500
  end.

(** Lines 188-195: the [catch] around token generation. *)
Definition mintCatch (error : exn) : Response :=
  match error with
  | TinybirdError m statusCode => json [("error", m)] (status_or_500 statusCode)
  | _ => proxyCatch error
  end.

(** The handler cut at its [await]s.  A request is at one of these points;
    each step runs one segment at the instant the schedule gives it. *)
Inductive phase :=
| AtLookup
| AtMint
| AtStore (token : string)
| AtForward (token : string)
| Finished (res : Response).

Definition step `{Externals} (env : Env) (o : Oracle) (userId : string)
    (r : Request) (now : Z) (p : phase) (w : World) : phase * World :=
  match p with
  | AtLookup =>
      match lookupToken o now userId w with
      | (Ok tinybirdToken, w') =>
          if truthy tinybirdToken
          then (AtForward (default "" tinybirdToken), w')
          else (AtMint, w')
      | (Throw e, w') => (Finished (proxyCatch e), w')
      end
  | AtMint =>
      match Tinybird.generateTinybirdToken env o now userId w with
      | (Ok token, w') => (AtStore token, w')
      | (Throw e, w') => (Finished (mintCatch e), w')
      end
  | AtStore token =>
      match storeToken o now userId token w with
      | (Ok _, w') => (AtForward token, w')
      | (Throw e, w') => (Finished (proxyCatch e), w')
      end
  | AtForward token =>
      match forward env o r token w with
      | (Ok res, w') => (Finished res, w')
      | (Throw e, w') => (Finished (proxyCatch e), w')
      end
  | Finished res => (Finished res, w)
  end.

(** One request run alone: its segments at the instants [clock]. *)
Fixpoint run `{Externals} (env : Env) (o : Oracle) (userId : string)
    (r : Request) (clock : list Z) (p : phase) (w : World) : phase * World :=
  match clock with
  | [] => (p, w)
  | now :: later =>
      let '(p', w') := step env o userId r now p w in
      run env o userId r later p' w'
  end.

(** The handler for an authenticated user: lookup at [t_lookup], then
    either forwarding, or minting at [t_mint], storing at [t_store] and
    forwarding. *)
Definition handler `{Externals} (env : Env) (o : Oracle) (userId : string)
    (r : Request) (t_lookup t_mint t_store : Z) (w : World) : phase * World :=
  run env o userId r [t_lookup; t_mint; t_store; t_store] AtLookup w.

(** Several requests of the same user in flight: an event [(i, now)] runs
    the next segment of request [i] at instant [now]. *)
Definition concurrent_step `{Externals} (env : Env) (o : Oracle)
    (userId : string) (r : Request) (s : list phase * World)
    (ev : nat * Z) : list phase * World :=
  match s.1 !! ev.1 with
  | Some p =>
      let '(p', w') := step env o userId r ev.2 p s.2 in
      (<[ev.1 := p']> s.1, w')
  | None => s
  end.

Definition concurrent_run `{Externals} (env : Env) (o : Oracle)
    (userId : string) (r : Request) (schedule : list (nat * Z))
    (s : list phase * World) : list phase * World :=
  foldl (concurrent_step env o userId r) s schedule.

End Proxy.

(** ** connectionPool.ts

    Connection objects are numbered in the order [new Redis] creates them;
    callers of [acquire] are numbered by the environment.  The class is
    cut at its [await]s and callbacks: an event is one synchronous
    segment, and [step] returns [None] for an event that cannot occur in
    the state. *)
Module Pool.

Abbreviation conn := nat.
Abbreviation caller := nat.

Record PoolConfig := {
  minConnections : nat;
  maxConnections : nat;
  idleTimeoutMs : Z;
  connectionTimeoutMs : Z
}.

(** [config?.field || default] of the constructor *)
Definition or_default {A} (is_zero : A -> bool) (v : option A) (d : A) : A :=
  match v with
  | Some x => if is_zero x then d else x
  | None => d
  end.

Definition make_config (minC maxC : option nat) (idle timeout : option Z)
    : PoolConfig :=
  {| minConnections := or_default (Nat.eqb 0) minC 5%nat;
     maxConnections := or_default (Nat.eqb 0) maxC 50%nat;
     idleTimeoutMs := or_default (Z.eqb 0) idle 30000;
     connectionTimeoutMs := or_default (Z.eqb 0) timeout 5000 |}.

(** Who awaits a [createConnection] call, and how far the call is. *)
Inductive awaiter :=
| ByInit
| ByAcquire (who : caller)
| ByReplenish.

Inductive progress :=
| Connecting
| Returned (ok : bool).

(** What the promise of [acquire] settled to. *)
Inductive acquired :=
| Resolved (c : conn)
| Rejected (message : string).

Record State := {
  config : PoolConfig;
  (** the fields of the class *)
  pool : list conn;
  available : list conn;
  inUse : gset conn;
  creating : nat;
  (** the asynchronous parts in flight *)
  fresh : conn;
  pending : gmap conn (awaiter * progress);
  init_slots : option (list conn);
  waiting : gset caller;
  outcome : gmap caller acquired;
  pinging : gset conn
}.

Definition set_fields (s : State) (p a : list conn) (u : gset conn) : State :=
  {| config := config s; pool := p; available := a; inUse := u;
     creating := creating s; fresh := fresh s; pending := pending s;
     init_slots := init_slots s; waiting := waiting s;
     outcome := outcome s; pinging := pinging s |}.

(** [array.pop()] *)
Definition pop (l : list conn) : option (conn * list conn) :=
  match reverse l with
  | [] => None
  | x :: rest => Some (x, reverse rest)
  end.

(** [i = array.indexOf(x); if (i > -1) array.splice(i, 1)] *)
Fixpoint remove_first (x : conn) (l : list conn) : list conn :=
  match l with
  | [] => []
  | y :: rest => if Nat.eqb x y then rest else y :: remove_first x rest
  end.

(** [createConnection()] up to its [await redis.ping()]: [creating++] and
    a new connection object. *)
Definition createConnection_start (a : awaiter) (s : State) : State :=
  {| config := config s; pool := pool s; available := available s;
     inUse := inUse s; creating := S (creating s);
     fresh := S (fresh s);
     pending := <[fresh s := (a, Connecting)]> (pending s);
     init_slots := init_slots s; waiting := waiting s;
     outcome := outcome s; pinging := pinging s |}.

(** [createConnection()] after the ping settled: it returns the connection
    or [null], and the [finally] runs [creating--]. *)
Definition createConnection_finish (c : conn) (a : awaiter) (ok : bool)
    (s : State) : State :=
  {| config := config s; pool := pool s; available := available s;
     inUse := inUse s; creating := pred (creating s);
     fresh := fresh s;
     pending := <[c := (a, Returned ok)]> (pending s);
     init_slots := init_slots s; waiting := waiting s;
     outcome := outcome s; pinging := pinging s |}.

Definition forget (c : conn) (s : State) : State :=
  {| config := config s; pool := pool s; available := available s;
     inUse := inUse s; creating := creating s; fresh := fresh s;
     pending := delete c (pending s);
     init_slots := init_slots s; waiting := waiting s;
     outcome := outcome s; pinging := pinging s |}.

(** The constructor: empty collections, then [initializePool()] up to its
    [await Promise.all(promises)]. *)
Definition empty_state (cfg : PoolConfig) : State :=
  {| config := cfg; pool := []; available := []; inUse := ∅;
     creating := 0%nat; fresh := 0%nat; pending := ∅; init_slots := None;
     waiting := ∅; outcome := ∅; pinging := ∅ |}.

Fixpoint initializePool_start (n : nat) (s : State) : State :=
  match n with
  | O => s
  | S k => initializePool_start k (createConnection_start ByInit s)
  end.

Definition construct (cfg : PoolConfig) : State :=
  let s := initializePool_start (minConnections cfg) (empty_state cfg) in
  {| config := config s; pool := pool s; available := available s;
     inUse := inUse s; creating := creating s; fresh := fresh s;
     pending := pending s;
     init_slots := Some (seq 0 (minConnections cfg));
     waiting := waiting s; outcome := outcome s; pinging := pinging s |}.

(** [removeConnection(redis)] *)
Definition removeConnection (c : conn) (s : State) : State :=
  set_fields s (remove_first c (pool s)) (remove_first c (available s))
             (inUse s ∖ {[c]}).

Definition settle (who : caller) (r : acquired) (s : State) : State :=
  {| config := config s; pool := pool s; available := available s;
     inUse := inUse s; creating := creating s; fresh := fresh s;
     pending := pending s; init_slots := init_slots s;
     waiting := waiting s ∖ {[who]};
     outcome := <[who := r]> (outcome s); pinging := pinging s |}.

Definition wait (who : caller) (s : State) : State :=
  {| config := config s; pool := pool s; available := available s;
     inUse := inUse s; creating := creating s; fresh := fresh s;
     pending := pending s; init_slots := init_slots s;
     waiting := waiting s ∪ {[who]};
     outcome := outcome s; pinging := pinging s |}.

(** Taking the last idle connection: [available.pop()], [inUse.add]. *)
Definition take (who : caller) (s : State) : option State :=
  match pop (available s) with
  | Some (c, rest) =>
      Some (settle who (Resolved c)
              (set_fields s (pool s) rest (inUse s ∪ {[c]})))
  | None => None
  end.

(** [acquire()], up to its first suspension. *)
Definition acquire (who : caller) (s : State) : State :=
  if Nat.ltb 0 (length (available s)) then
    default s (take who s)
  else if Nat.ltb (length (pool s) + creating s)
                  (maxConnections (config s)) then
    createConnection_start (ByAcquire who) s
  else
    wait who s.

(** [acquire()] after [await this.createConnection()]. *)
Definition acquire_resume (who : caller) (c : conn) (ok : bool) (s : State)
    : State :=
  if ok then
    settle who (Resolved c)
      (set_fields s (pool s ++ [c]) (available s) (inUse s ∪ {[c]}))
  else wait who s.

(** The [setInterval] callback of a waiting [acquire()]. *)
Definition poll (who : caller) (s : State) : State :=
  if Nat.ltb 0 (length (available s)) then default s (take who s) else s.

(** The [setTimeout] callback of a waiting [acquire()]. *)
Definition timeout (who : caller) (s : State) : State :=
  settle who (Rejected "Connection pool timeout - no available connections") s.

(** [release(redis)], up to the ping it issues. *)
Definition release (c : conn) (s : State) : State :=
  if decide (c ∈ inUse s) then
    {| config := config s; pool := pool s; available := available s;
       inUse := inUse s ∖ {[c]}; creating := creating s; fresh := fresh s;
       pending := pending s; init_slots := init_slots s;
       waiting := waiting s; outcome := outcome s;
       pinging := pinging s ∪ {[c]} |}
  else s.

(** The [then] / [catch] of the ping issued by [release]. *)
Definition release_ping (c : conn) (ok : bool) (s : State) : State :=
  let s := {| config := config s; pool := pool s; available := available s;
              inUse := inUse s; creating := creating s; fresh := fresh s;
              pending := pending s; init_slots := init_slots s;
              waiting := waiting s; outcome := outcome s;
              pinging := pinging s ∖ {[c]} |} in
  if ok then set_fields s (pool s) (available s ++ [c]) (inUse s)
  else
    let s := removeConnection c s in
    if Nat.ltb (length (pool s)) (minConnections (config s))
    then createConnection_start ByReplenish s
    else s.

(** The [then] of the replacement created by [release]. *)
Definition replenish_resume (c : conn) (ok : bool) (s : State) : State :=
  if ok then set_fields s (pool s ++ [c]) (available s ++ [c]) (inUse s)
  else s.

(** [initializePool()] after [await Promise.all(promises)]. *)
Definition returned_ok (s : State) (c : conn) : option bool :=
  match pending s !! c with
  | Some (_, Returned ok) => Some ok
  | _ => None
  end.

Definition initializePool_push (s : State) (c : conn) : State :=
  match returned_ok s c with
  | Some true =>
      forget c (set_fields s (pool s ++ [c]) (available s ++ [c]) (inUse s))
  | _ => forget c s
  end.

Definition initializePool_resume (slots : list conn) (s : State) : State :=
  let s := foldl initializePool_push s slots in
  {| config := config s; pool := pool s; available := available s;
     inUse := inUse s; creating := creating s; fresh := fresh s;
     pending := pending s; init_slots := None;
     waiting := waiting s; outcome := outcome s; pinging := pinging s |}.

(** [shutdown()] once the [quit] calls have settled. *)
Definition shutdown (s : State) : State := set_fields s [] [] ∅.

Inductive event :=
| Ping (c : conn) (ok : bool)
| InitJoin
| Acquire (who : caller)
| Resume (c : conn)
| Poll (who : caller)
| Timeout (who : caller)
| Release (c : conn)
| ReleasePing (c : conn) (ok : bool)
| Lost (c : conn)
| Shutdown.

Definition step (e : event) (s : State) : option State :=
  match e with
  | Ping c ok =>
      match pending s !! c with
      | Some (a, Connecting) => Some (createConnection_finish c a ok s)
      | _ => None
      end
  | InitJoin =>
      match init_slots s with
      | Some slots =>
          if forallb (fun c => bool_decide (is_Some (returned_ok s c))) slots
          then Some (initializePool_resume slots s) else None
      | None => None
      end
  | Acquire who =>
      if decide (who ∈ waiting s ∨ is_Some (outcome s !! who)) then None
      else Some (acquire who s)
  | Resume c =>
      match pending s !! c with
      | Some (ByAcquire who, Returned ok) =>
          Some (acquire_resume who c ok (forget c s))
      | Some (ByReplenish, Returned ok) =>
          Some (replenish_resume c ok (forget c s))
      | _ => None
      end
  | Poll who =>
      if decide (who ∈ waiting s) then Some (poll who s) else None
  | Timeout who =>
      if decide (who ∈ waiting s) then Some (timeout who s) else None
  | Release c => Some (release c s)
  | ReleasePing c ok =>
      if decide (c ∈ pinging s) then Some (release_ping c ok s) else None
  | Lost c => if decide (c < fresh s)%nat then Some (removeConnection c s) else None
  | Shutdown => Some (shutdown s)
  end.

Fixpoint run (es : list event) (s : State) : option State :=
  match es with
  | [] => Some s
  | e :: rest =>
      match step e s with
      | Some s' => run rest s'
      | None => None
      end
  end.

(** [getStats()] *)
Record Stats := {
  total : nat;
  stat_available : nat;
  stat_inUse : nat;
  stat_creating : nat;
  stat_maxConnections : nat
}.

Definition getStats (s : State) : Stats :=
  {| total := length (pool s);
     stat_available := length (available s);
     stat_inUse := size (inUse s);
     stat_creating := creating s;
     stat_maxConnections := maxConnections (config s) |}.

End Pool.

(** ** index.ts: the CORS origin callback *)
Module Cors.

(** [s.split(',')] *)
Fixpoint split_comma (s : string) : list string :=
  match s with
  | EmptyString => [EmptyString]
  | String c rest =>
      if Ascii.eqb c ","%char then EmptyString :: split_comma rest
      else match split_comma rest with
           | first :: others => String c first :: others
           | [] => [String c EmptyString]
           end
  end.

(** Lines 29-40; [ALLOWED_ORIGINS] is [process.env.ALLOWED_ORIGINS],
    [origin] the request's [Origin] header, empty when absent; [None] is
    [null]. *)
Definition origin_callback (env : Env) (ALLOWED_ORIGINS : option string)
    (origin : string) : option string :=
  let allowedOrigins :=
    match ALLOWED_ORIGINS with
    | Some list => split_comma list
    | None => []
    end in
  if TruckFetcher.is_development env then
    Some (if truthy (Some origin) then origin else "*")
  else if negb (truthy (Some origin)) then Some origin
  else if bool_decide (origin ∈ allowedOrigins) then Some origin
  else None.

End Cors.

(** ** metrics.ts

    Metric values are the integers the proxy records (counts, and durations
    in milliseconds taken as differences of [Date.now()]). *)
Module Metrics.

(** Counter values are JavaScript numbers, IEEE 754 double-precision
    floats: [incrementCounter] does arithmetic on them. *)
Record MetricsCollector := {
  counters : gmap string PrimFloat.float;
  gauges : gmap string Z;
  histograms : gmap string (list Z)
}.

Definition empty : MetricsCollector :=
  {| counters := ∅; gauges := ∅; histograms := ∅ |}.

Definition histogramBuckets : list Z :=
  [10; 25; 50; 100; 250; 500; 1000; 2500; 5000; 10000].

Definition quote : string := String (ascii_of_nat 34) EmptyString.

(** The stable sort of [Array.prototype.sort] under a comparator, here the
    one that orders label names: [before a b] is [a.localeCompare(b) <= 0]. *)
Fixpoint sort_insert (before : string -> string -> bool)
    (x : string * string) (l : list (string * string))
    : list (string * string) :=
  match l with
  | [] => [x]
  | y :: rest =>
      if before y.1 x.1 then y :: sort_insert before x rest
      else x :: y :: rest
  end.

Definition sort_labels (before : string -> string -> bool)
    (l : list (string * string)) : list (string * string) :=
  foldl (fun sorted x => sort_insert before x sorted) [] l.

(** [getMetricKey(name, labels)]; [labels] is [Object.entries(labels)]. *)
Definition getMetricKey (before : string -> string -> bool) (name : string)
    (labels : option (list (string * string))) : string :=
  match labels with
  | None => name
  | Some entries =>
      if Nat.eqb (length entries) 0 then name
      else
        let labelPairs :=
          String.concat ","
            (map (fun kv => kv.1 +:+ "=" +:+ quote +:+ kv.2 +:+ quote)
                 (sort_labels before entries)) in
        name +:+ "{" +:+ labelPairs +:+ "}"
  end.

(** [getMetricName(key)]: the match of [/^([^{]+)/], or the key. *)
Fixpoint until_brace (key : string) : string :=
  match key with
  | EmptyString => EmptyString
  | String c rest =>
      if Ascii.eqb c "{"%char then EmptyString else String c (until_brace rest)
  end.

Definition getMetricName (key : string) : string :=
  match until_brace key with
  | EmptyString => key
  | matched => matched
  end.

(** [n || 0] on a number: [0], [-0] and [NaN] are falsy. *)
Definition or_zero (n : PrimFloat.float) : PrimFloat.float :=
  if (PrimFloat.is_zero n || PrimFloat.is_nan n)%bool then PrimFloat.zero
  else n.

(** [incrementCounter(name, value = 1, labels)]; [+] is the addition of
    doubles, and [this.counters.get(key)] is [undefined] for an absent key. *)
Definition incrementCounter (before : string -> string -> bool)
    (name : string) (value : PrimFloat.float)
    (labels : option (list (string * string)))
    (m : MetricsCollector) : MetricsCollector :=
  let key := getMetricKey before name labels in
  let current :=
    match counters m !! key with
    | Some n => or_zero n
    | None => PrimFloat.zero
    end in
  {| counters := <[key := PrimFloat.add current value]> (counters m);
     gauges := gauges m; histograms := histograms m |}.

(** [setGauge(name, value, labels)] *)
Definition setGauge (before : string -> string -> bool)
    (name : string) (value : Z) (labels : option (list (string * string)))
    (m : MetricsCollector) : MetricsCollector :=
  let key := getMetricKey before name labels in
  {| counters := counters m; gauges := <[key := value]> (gauges m);
     histograms := histograms m |}.

(** [recordHistogram(name, value, labels)] *)
Definition recordHistogram (before : string -> string -> bool)
    (name : string) (value : Z) (labels : option (list (string * string)))
    (m : MetricsCollector) : MetricsCollector :=
  let key := getMetricKey before name labels in
  let present :=
    match histograms m !! key with
    | Some values => values
    | None => []
    end in
  {| counters := counters m; gauges := gauges m;
     histograms := <[key := present ++ [value]]> (histograms m) |}.

(** [startTimer(name, labels)] called at [startTime], and the function it
    returns called at [now]. *)
Definition stopTimer (before : string -> string -> bool)
    (name : string) (labels : option (list (string * string)))
    (startTime now : Z) (m : MetricsCollector) : MetricsCollector :=
  let duration := now - startTime in
  recordHistogram before name duration labels m.

(** [calculateHistogramBuckets(values)]: pairs of [le] and [count]. *)
Definition calculateHistogramBuckets (values : list Z) : list (Z * nat) :=
  map (fun bucketLimit =>
         (bucketLimit, length (filter (fun v => v <= bucketLimit) values)))
      histogramBuckets.

(** [reset()] *)
Definition reset (m : MetricsCollector) : MetricsCollector := empty.

End Metrics.

(** ** Statements of the specification, and test doubles *)

(** The priority rule as the specification words it: the first source, in
    the given order, that yields a token. *)
Fixpoint first_truthy (sources : list (option string)) : option string :=
  match sources with
  | [] => None
  | s :: later => if truthy s then s else first_truthy later
  end.

(** The error body shape [{ error, code, timestamp }]. *)
Definition has_field (k : string) (b : Body) : bool :=
  match b with
  | JsonObject fields => bool_decide (k ∈ fields.*1)
  | UpstreamData _ => false
  end.

Definition error_shape (b : Body) : bool :=
  (has_field "error" b && has_field "code" b && has_field "timestamp" b)%bool.



(** What a computation may do to the world: it only appends warnings, never
    lowers the mint counter, and reads nothing but the key space. *)
Definition tame {A} (m : M A) : Prop :=
  (forall w, warnings w `prefix_of` warnings (m w).2
             /\ (mints w <= mints (m w).2)%nat)
  /\ (forall w1 w2, cache w1 = cache w2 ->
        (m w1).1 = (m w2).1 /\ cache (m w1).2 = cache (m w2).2).

(** A computation that leaves the key space alone. *)
Definition read_only {A} (m : M A) : Prop :=
  forall w, cache (m w).2 = cache w.

(** The world once an invocation of [generateTinybirdToken] is counted. *)
Definition counted (w : World) : World :=
  {| cache := cache w; warnings := warnings w; mints := S (mints w) |}.

(** A request that has been through its own mint. *)
Definition minted (p : Proxy.phase) : Prop :=
  match p with
  | Proxy.AtStore _ | Proxy.Finished _ => True
  | _ => False
  end.

(** A request that may still mint: 1 before its mint segment has run. *)
Definition may_mint (p : Proxy.phase) : nat :=
  match p with
  | Proxy.AtLookup | Proxy.AtMint => 1%nat
  | _ => 0%nat
  end.

(** Test doubles for the external libraries and the outside world. *)
Definition demo_externals : Externals :=
  {| jwt_verify token secret :=
       if String.eqb token "jwt-u1"
       then Ok {| claim_userId := Some "u1"; claim_others := ∅ |}
       else Throw (JsonWebTokenError "jwt malformed");
     jwt_sign payload key :=
       Ok (name payload +:+ "." +:+ pretty (exp payload));
     JSON_stringify l := "[" +:+ String.concat "," l +:+ "]";
     JSON_parse s :=
       if String.eqb s "[]" then Ok [] else Throw (Error "Unexpected token");
     toISOString t := pretty t;
     URLSearchParams_toString q :=
       String.concat "&" (map (fun kv => kv.1 +:+ "=" +:+ kv.2) q) |}.

Definition demo_env : Env :=
  {| NODE_ENV := Some "production";
     JWT_SECRET := Some "secret";
     TINYBIRD_WORKSPACE_ID := Some "ws";
     TINYBIRD_SIGNING_KEY := Some "key";
     TINYBIRD_API_URL := Some "https://api.tinybird.co" |}.


Definition demo_response : AxiosResponse :=
  {| ax_status := 200; ax_response_data := "{}"; ax_response_headers := ∅ |}.

(** A healthy outside world in which the database knows [trucks]. *)
Definition demo_oracle (trucks : list string) : Oracle :=
  {| pool_lookup_fault := None;
     pool_store_fault := None;
     dragonfly_get_fault := None;
     dragonfly_setex_fault := None;
     planetscale_execute := fun _ => Ok (Some trucks);
     body_json := fun raw => Ok raw;
     axios := fun _ => Ok demo_response |}.

(** The same, with the database down and the cache pool exhausted. *)
Definition faulty_oracle : Oracle :=
  {| pool_lookup_fault :=
       Some (Error "Connection pool timeout - no available connections");
     pool_store_fault :=
       Some (Error "Connection pool timeout - no available connections");
     dragonfly_get_fault := None;
     dragonfly_setex_fault := None;
     planetscale_execute := fun _ => Throw (Error "connect ETIMEDOUT");
     body_json := fun raw => Ok raw;
     axios := fun _ => Ok demo_response |}.

Definition demo_request : Request :=
  {| req_method := "GET";
     req_path := "/v0/pipes/truck_history_endpoint.json";
     req_query := [];
     req_cookies := {[ "auth_token" := "jwt-u1" ]};
     req_headers := {[ "accept" := "*/*" ]};
     req_body := "" |}.

Definition empty_world : World :=
  {| cache := ∅; warnings := []; mints := 0%nat |}.

(** A pool configured with [REDIS_MIN_CONNECTIONS=2] and
    [REDIS_MAX_CONNECTIONS=2]. *)
Definition two_two : Pool.PoolConfig :=
  Pool.make_config (Some 2%nat) (Some 2%nat) None None.

(** The first warm-up connection is ready, a request acquires and gets a
    connection of its own, then the second warm-up connection is ready and
    the warm-up completes. *)
Definition slow_warmup : list Pool.event :=
  [Pool.Ping 0 true; Pool.Acquire 7; Pool.Ping 2 true; Pool.Resume 2;
   Pool.Ping 1 true; Pool.InitJoin].

(** ** Bookkeeping of the connection pool

    What the collections of [RedisConnectionPool] satisfy in every state the
    events can reach; stated on the fields, so that it can also be used in
    the middle of the loop of [initializePool]. *)
Definition is_connecting (kv : Pool.conn * (Pool.awaiter * Pool.progress))
    : bool :=
  match kv.2.2 with
  | Pool.Connecting => true
  | Pool.Returned _ => false
  end.

Definition pool_ok (p a : list Pool.conn) (u pg : gset Pool.conn)
    (f : Pool.conn) (pd : gmap Pool.conn (Pool.awaiter * Pool.progress))
    (sl : option (list Pool.conn)) (cr : nat) : Prop :=
  NoDup p
  /\ NoDup a
  /\ (forall c, c ∈ a -> (c ∉ u) /\ (c ∉ pg))
  /\ (forall c, c ∈ u -> c ∉ pg)
  /\ (forall c, c ∈ p \/ c ∈ a \/ c ∈ u \/ c ∈ pg ->
                (c < f)%nat /\ pd !! c = None)
  /\ (forall c, is_Some (pd !! c) -> (c < f)%nat)
  /\ (forall slots, sl = Some slots ->
         NoDup slots
         /\ forall c, c ∈ slots -> exists pr, pd !! c = Some (Pool.ByInit, pr))
  /\ cr = size (filter (fun kv => is_connecting kv = true) pd).

Definition pool_wf (s : Pool.State) : Prop :=
  pool_ok (Pool.pool s) (Pool.available s) (Pool.inUse s) (Pool.pinging s)
          (Pool.fresh s) (Pool.pending s) (Pool.init_slots s) (Pool.creating s).

(** The [createConnection] calls that have not returned yet. *)
Definition connecting (s : Pool.State) : nat :=
  size (filter (fun kv => is_connecting kv = true) (Pool.pending s)).

(** The value of a field of a JSON object body. *)
Definition field (k : string) (b : Body) : option string :=
  match b with
  | JsonObject fields => (list_to_map fields : gmap string string) !! k
  | UpstreamData _ => None
  end.

(** A response that sets no cookie, whatever the casing of the header. *)
Definition sets_no_cookie (res : Response) : Prop :=
  forall k, toLowerCase k = "set-cookie" -> res_headers res !! k = None.

(** The comparator of label names orders the names of a list: on them it
    is total, antisymmetric and transitive. *)
Definition orders (before : string -> string -> bool) (names : list string)
    : Prop :=
  Forall (fun a =>
    Forall (fun b =>
      (before a b = true \/ before b a = true)
      /\ (before a b = true -> before b a = true -> a = b)
      /\ Forall (fun c =>
            before a b = true -> before b c = true -> before a c = true)
          names)
      names)
    names.

(** Label entries compared by their names. *)
Definition by_name (before : string -> string -> bool)
    (x y : string * string) : Prop :=
  before x.1 y.1 = true.

(** A request that is finished has a response without cookies. *)
Definition finished_clean (p : Proxy.phase) : Prop :=
  match p with
  | Proxy.Finished res => sets_no_cookie res
  | _ => True
  end.

(** The world after user [u1] was served once: its credential is cached. *)
Definition cached_world : World :=
  (Proxy.handler (H := demo_externals) demo_env (demo_oracle ["REG1"]) "u1"
     demo_request 0 999 999 empty_world).2.

(** An environment without backend origin. *)
Definition no_origin_env : Env :=
  {| NODE_ENV := Some "production";
     JWT_SECRET := Some "secret";
     TINYBIRD_WORKSPACE_ID := Some "ws";
     TINYBIRD_SIGNING_KEY := Some "key";
     TINYBIRD_API_URL := None |}.

(** A POST whose body declares JSON, and an outside world in which it does
    not parse. *)
Definition post_request : Request :=
  {| req_method := "POST";
     req_path := "/v0/pipes/truck_history_endpoint.json";
     req_query := [];
     req_cookies := {[ "auth_token" := "jwt-u1" ]};
     req_headers := {[ "content-type" := "application/json; charset=utf-8" ]};
     req_body := "{" |}.

Definition bad_body_oracle : Oracle :=
  {| pool_lookup_fault := None;
     pool_store_fault := None;
     dragonfly_get_fault := None;
     dragonfly_setex_fault := None;
     planetscale_execute := fun _ => Ok (Some ["REG1"]);
     body_json := fun raw => Throw (Error "Unexpected end of JSON input");
     axios := fun _ => Ok demo_response |}.

(** Test doubles whose [JSON.parse] undoes [JSON.stringify] on arrays of
    comma-free strings. *)
Definition csv_externals : Externals :=
  {| jwt_verify := jwt_verify (Externals := demo_externals);
     jwt_sign := jwt_sign (Externals := demo_externals);
     JSON_stringify l := String.concat "," l;
     JSON_parse s := Ok (Cors.split_comma s);
     toISOString := toISOString (Externals := demo_externals);
     URLSearchParams_toString :=
       URLSearchParams_toString (Externals := demo_externals) |}.

(** The database as the batch query sees it: it knows [REG1] only. *)
Definition demo_batch (userId : string) (nos : list string)
    : result (option (list string)) :=
  Ok (Some (filter (fun regNo => regNo = "REG1") nos)).

(** The warm-up of a pool of two, undisturbed. *)
Definition warm_up : list Pool.event :=
  [Pool.Ping 0 true; Pool.Ping 1 true; Pool.InitJoin].

(** A pool of two with both connections checked out and a third caller
    waiting. *)
Definition busy_pool : Pool.State :=
  default (Pool.construct two_two)
    (Pool.run (warm_up ++ [Pool.Acquire 1; Pool.Acquire 2; Pool.Acquire 3])
              (Pool.construct two_two)).

(** * Properties *)

(** ** How the computations treat the world *)
Section Tame.
Context `{!Externals}.

Lemma tame_ret {A} (a : A) : tame (ret a).
Proof. split; [split; simpl; [done | lia] | intros; split; [reflexivity | assumption]]. Qed.

Lemma tame_throw {A} (e : exn) : tame (throw (A := A) e).
Proof. split; [split; simpl; [done | lia] | intros; split; [reflexivity | assumption]]. Qed.

Lemma tame_lift {A} (r : result A) : tame (lift r).
Proof. split; [split; simpl; [done | lia] | intros; split; [reflexivity | assumption]]. Qed.

Lemma tame_console_warn line : tame (console_warn line).
Proof.
  split; [split; simpl; [by apply prefix_app_r | lia] | intros; split; [reflexivity | assumption]].
Qed.

Lemma tame_count_mint : tame count_mint.
Proof.
  split; [split; simpl; [done | lia] | intros; split; [reflexivity | assumption]].
Qed.

Lemma tame_redis_get fault now key : tame (redis_get fault now key).
Proof.
  split.
  - intros w. unfold redis_get. destruct fault; simpl; (split; [done | lia]).
  - intros w1 w2 Hc. unfold redis_get. destruct fault; simpl; [done |].
    by rewrite Hc.
Qed.

Lemma tame_redis_setex fault now key seconds v :
  tame (redis_setex fault now key seconds v).
Proof.
  split.
  - intros w. unfold redis_setex. destruct fault; simpl; (split; [done | lia]).
  - intros w1 w2 Hc. unfold redis_setex. destruct fault; simpl; [done |].
    by rewrite Hc.
Qed.

Lemma tame_bind {A B} (m : M A) (k : A -> M B) :
  tame m -> (forall a, tame (k a)) -> tame (bind m k).
Proof.
  intros [Hm1 Hm2] Hk. split.
  - intros w. unfold bind. specialize (Hm1 w).
    destruct (m w) as [[a | e] w'] eqn:E; simpl in *; [| done].
    destruct (Hk a) as [Hk1 _]. specialize (Hk1 w').
    destruct Hm1, Hk1. split; [by etrans | lia].
  - intros w1 w2 Hc. unfold bind. specialize (Hm2 w1 w2 Hc).
    destruct (m w1) as [[a1 | e1] w1'], (m w2) as [[a2 | e2] w2'];
      simpl in *; destruct Hm2 as [Hr Hc']; simplify_eq; [| done].
    destruct (Hk a2) as [_ Hk2]. by apply Hk2.
Qed.

Lemma tame_try_catch {A} (m : M A) (h : exn -> M A) :
  tame m -> (forall e, tame (h e)) -> tame (try_catch m h).
Proof.
  intros [Hm1 Hm2] Hh. split.
  - intros w. unfold try_catch. specialize (Hm1 w).
    destruct (m w) as [[a | e] w'] eqn:E; simpl in *; [done |].
    destruct (Hh e) as [Hh1 _]. specialize (Hh1 w').
    destruct Hm1, Hh1. split; [by etrans | lia].
  - intros w1 w2 Hc. unfold try_catch. specialize (Hm2 w1 w2 Hc).
    destruct (m w1) as [[a1 | e1] w1'], (m w2) as [[a2 | e2] w2'];
      simpl in *; destruct Hm2 as [Hr Hc']; simplify_eq; [done |].
    destruct (Hh e2) as [_ Hh2]. by apply Hh2.
Qed.

Ltac tame_step :=
  first
    [ apply tame_ret | apply tame_throw | apply tame_lift
    | apply tame_console_warn | apply tame_count_mint
    | apply tame_redis_get | apply tame_redis_setex
    | apply tame_bind; [| intros ?] | apply tame_try_catch; [| intros ?]
    | assumption ].

Ltac tame := repeat first [ tame_step | case_match ].

Lemma tame_getToken o now userId : tame (Dragonfly.getToken o now userId).
Proof. unfold Dragonfly.getToken. tame. Qed.

Lemma tame_setToken o now userId token ttl :
  tame (Dragonfly.setToken o now userId token ttl).
Proof. unfold Dragonfly.setToken. tame. Qed.

Lemma tame_getTruckAccessForUser o userId :
  tame (PlanetScale.getTruckAccessForUser o userId).
Proof. unfold PlanetScale.getTruckAccessForUser. tame. Qed.

Lemma tame_readCachedTrucks o now key :
  tame (TruckFetcher.readCachedTrucks o now key).
Proof.
  unfold TruckFetcher.readCachedTrucks.
  pose proof (tame_getToken o now key). tame.
Qed.

Lemma tame_fetchTrucks env o now userId key :
  tame (TruckFetcher.fetchTrucks env o now userId key).
Proof.
  unfold TruckFetcher.fetchTrucks.
  pose proof (tame_getTruckAccessForUser o userId).
  apply tame_try_catch; [| intros ?; tame].
  apply tame_bind; [assumption | intros l].
  apply tame_bind; [| intros ?; tame].
  case_match; [| tame].
  apply tame_try_catch; [apply tame_setToken | intros ?; tame].
Qed.

Lemma tame_getTruckRegistrationNos env o now userId :
  tame (TruckFetcher.getTruckRegistrationNos env o now userId).
Proof.
  unfold TruckFetcher.getTruckRegistrationNos.
  apply tame_bind; [apply tame_readCachedTrucks | intros [l |]; [tame |]].
  apply tame_fetchTrucks.
Qed.

Lemma tame_generateTinybirdToken env o now userId :
  tame (Tinybird.generateTinybirdToken env o now userId).
Proof.
  unfold Tinybird.generateTinybirdToken.
  apply tame_bind; [apply tame_count_mint | intros _].
  apply tame_try_catch; [| intros ?; apply tame_throw].
  case_match; [tame |]. case_match; [tame |].
  apply tame_bind; [apply tame_getTruckRegistrationNos | intros l]. tame.
Qed.

Lemma tame_lookupToken o now userId : tame (Proxy.lookupToken o now userId).
Proof. unfold Proxy.lookupToken. tame. Qed.

Lemma tame_storeToken o now userId token :
  tame (Proxy.storeToken o now userId token).
Proof. unfold Proxy.storeToken. tame. Qed.

Lemma tame_readBody o r : tame (Proxy.readBody o r).
Proof. unfold Proxy.readBody. tame. Qed.

Lemma tame_forward env o r token : tame (Proxy.forward env o r token).
Proof.
  unfold Proxy.forward. case_match; [tame |].
  apply tame_bind; [apply tame_readBody | intros ?]. tame.
Qed.

End Tame.

(** ** Identity assertion sources (auth.ts) *)
Section AuthProps.
Context `{!Externals}.

Lemma or_else_first_truthy (a b : option string) :
  truthy (or_else a b) = (truthy a || truthy b)%bool.
Proof. unfold or_else. destruct (truthy a) eqn:E; simpl; [by rewrite E | done]. Qed.

Lemma first_truthy_is_truthy (l : list (option string)) (t : string) :
  first_truthy l = Some t -> truthy (Some t) = true.
Proof.
  induction l as [| s l IH]; simpl; [done |].
  destruct (truthy s) eqn:E; [intros ->; exact E | exact IH].
Qed.







(** An earlier source wins whatever the later ones hold. *)
Lemma earlier_cookie_wins (r : Request) (t : string) :
  getCookie r "auth_token" = Some t -> t <> "" ->
  Auth.extractToken r = Some t.
Proof.
  intros Hc Hne.
  assert (Ht : truthy (Some t) = true).
  { simpl. by destruct (String.eqb_spec t ""). }
  unfold Auth.extractToken, Auth.cookieToken, or_else.
  rewrite Hc. by rewrite !Ht.
Qed.

(** Every failure response of the middleware has the three-field body. *)
Lemma auth_error_shape (now : Z) (e : exn) :
  error_shape (res_body (Auth.errorResponse now e)) = true.
Proof.
  unfold Auth.errorResponse.
  destruct e; simpl; reflexivity.
Qed.

End AuthProps.

Example priority_cookie_over_bearer :
  Auth.extractToken
    {| req_method := "GET"; req_path := "/"; req_query := [];
       req_cookies := {[ "jwt" := "from-jwt-cookie" ]};
       req_headers := {[ "authorization" := "Bearer from-header" ]};
       req_body := "" |}
  = Some "from-jwt-cookie".
Proof. vm_compute. reflexivity. Qed.

Example bearer_when_no_cookie :
  Auth.extractToken
    {| req_method := "GET"; req_path := "/"; req_query := [];
       req_cookies := {[ "auth_token" := "" ]};
       req_headers := {[ "authorization" := "Bearer from-header" ]};
       req_body := "" |}
  = Some "from-header".
Proof. vm_compute. reflexivity. Qed.

(** ** Header policy of the forwarder (index.ts) *)
Section Headers.






(** The framework hands the header names over in lower case, so none is
    spelled [Content-Type]. *)
Lemma lower_case_names (m : gmap string string) :
  (forall k, is_Some (m !! k) -> toLowerCase k = k) ->
  m !! "Content-Type" = None.
Proof.
  intros Hlow. destruct (m !! "Content-Type") eqn:E; [| done].
  assert (Habs : toLowerCase "Content-Type" = "Content-Type")
    by (apply Hlow; by rewrite E).
  discriminate Habs.
Qed.



End Headers.

(** ** The authorized-resource set (truckFetcher.ts, tinybird.ts) *)
Section Trucks.
Context `{!Externals}.

Ltac run_monad :=
  unfold try_catch, bind, ret, throw, lift, console_warn, redis_get,
    redis_setex, count_mint in *.


Lemma getToken_read_only o now key : read_only (Dragonfly.getToken o now key).
Proof.
  intros w. unfold Dragonfly.getToken. run_monad.
  by repeat (case_match; simplify_eq; simpl).
Qed.

Lemma readCachedTrucks_read_only o now key :
  read_only (TruckFetcher.readCachedTrucks o now key).
Proof.
  intros w. unfold TruckFetcher.readCachedTrucks.
  pose proof (getToken_read_only o now key w) as Hg. run_monad.
  destruct (Dragonfly.getToken o now key w) as [[[data |] | e] w1];
    simpl in *; try done.
  by repeat (case_match; simplify_eq; simpl).
Qed.

Lemma getTruckAccessForUser_world o userId w :
  (PlanetScale.getTruckAccessForUser o userId w).2 = w.
Proof.
  unfold PlanetScale.getTruckAccessForUser. run_monad.
  by repeat (case_match; simplify_eq; simpl).
Qed.

Lemma lookupToken_read_only o now userId :
  read_only (Proxy.lookupToken o now userId).
Proof.
  intros w. unfold Proxy.lookupToken. run_monad.
  by repeat (case_match; simplify_eq; simpl).
Qed.


(** When the database knows no truck for the user and the cache holds no
    set, the fetcher returns the empty set. *)
Lemma getTruckRegistrationNos_no_rows env o now userId w rows :
  (TruckFetcher.readCachedTrucks o now ("truck_access:" +:+ userId) w).1 = Ok None ->
  planetscale_execute o userId = Ok rows ->
  rows = None \/ rows = Some [] ->
  (TruckFetcher.getTruckRegistrationNos env o now userId w).1 = Ok [].
Proof.
  intros Hmiss Hdb Hrows. unfold TruckFetcher.getTruckRegistrationNos.
  unfold bind at 1.
  destruct (TruckFetcher.readCachedTrucks o now _ w) as [res w1].
  simpl in Hmiss. subst res.
  unfold TruckFetcher.fetchTrucks, PlanetScale.getTruckAccessForUser.
  run_monad. rewrite Hdb. by destruct Hrows as [-> | ->].
Qed.

(** An empty result means nothing was written to the key space. *)
Lemma fetchTrucks_empty_no_write env o now userId key w :
  (TruckFetcher.fetchTrucks env o now userId key w).1 = Ok [] ->
  cache (TruckFetcher.fetchTrucks env o now userId key w).2 = cache w.
Proof.
  unfold TruckFetcher.fetchTrucks.
  pose proof (getTruckAccessForUser_world o userId w) as Hw.
  unfold try_catch, bind.
  destruct (PlanetScale.getTruckAccessForUser o userId w) as [[l | e] w1];
    simpl in Hw; subst w1.
  - destruct l as [| x l]; simpl; [done |].
    destruct (Dragonfly.setToken _ _ _ _ _ w) as [[[] | e] w2]; simpl;
      discriminate.
  - destruct (TruckFetcher.is_development env); simpl; [discriminate | done].
Qed.

Lemma getTruckRegistrationNos_empty_no_write env o now userId w :
  (TruckFetcher.getTruckRegistrationNos env o now userId w).1 = Ok [] ->
  cache (TruckFetcher.getTruckRegistrationNos env o now userId w).2 = cache w.
Proof.
  unfold TruckFetcher.getTruckRegistrationNos.
  pose proof (readCachedTrucks_read_only o now ("truck_access:" +:+ userId) w) as Hr.
  unfold bind.
  destruct (TruckFetcher.readCachedTrucks o now _ w) as [[[l |] | e] w1];
    simpl in *; try done.
  intros Hf. rewrite <- Hr. by apply fetchTrucks_empty_no_write.
Qed.

(** Token generation with both settings configured, step by step. *)
Lemma generateTinybirdToken_configured env o now userId w :
  truthy (TINYBIRD_WORKSPACE_ID env) = true ->
  truthy (TINYBIRD_SIGNING_KEY env) = true ->
  Tinybird.generateTinybirdToken env o now userId w
  = match TruckFetcher.getTruckRegistrationNos env o now userId (counted w) with
    | (Ok trucks, w1) =>
        if Nat.eqb (length trucks) 0 then
          (Throw (TinybirdError ("No truck registration numbers found for user "
                                 +:+ userId) (Some 404)), w1)
        else
          match jwt_sign (Tinybird.make_payload
                            (default "" (TINYBIRD_WORKSPACE_ID env)) userId now trucks)
                         (default "" (TINYBIRD_SIGNING_KEY env)) with
          | Ok token => (Ok token, w1)
          | Throw e => (Throw (Tinybird.rethrown e), w1)
          end
    | (Throw e, w1) => (Throw (Tinybird.rethrown e), w1)
    end.
Proof.
  intros Hws Hkey. unfold Tinybird.generateTinybirdToken.
  rewrite Hws, Hkey. cbn [negb].
  unfold bind, try_catch, count_mint, lift, ret, throw. fold (counted w).
  destruct (TruckFetcher.getTruckRegistrationNos env o now userId (counted w))
    as [[trucks | e] w1]; [| done].
  destruct (Nat.eqb (length trucks) 0); [done |].
  by destruct (jwt_sign _ _).
Qed.

(** With the set [trucks] resolved, token generation signs the payload
    built from it, or rejects the empty set; it writes what the fetcher
    writes. *)
Lemma generateTinybirdToken_resolved env o now userId w trucks :
  truthy (TINYBIRD_WORKSPACE_ID env) = true ->
  truthy (TINYBIRD_SIGNING_KEY env) = true ->
  (TruckFetcher.getTruckRegistrationNos env o now userId w).1 = Ok trucks ->
  (Tinybird.generateTinybirdToken env o now userId w).1
  = match trucks with
    | [] => Throw (TinybirdError ("No truck registration numbers found for user "
                                  +:+ userId) (Some 404))
    | _ =>
        match jwt_sign (Tinybird.make_payload
                          (default "" (TINYBIRD_WORKSPACE_ID env)) userId now trucks)
                       (default "" (TINYBIRD_SIGNING_KEY env)) with
        | Ok token => Ok token
        | Throw e => Throw (Tinybird.rethrown e)
        end
    end
  /\ cache (Tinybird.generateTinybirdToken env o now userId w).2
     = cache (TruckFetcher.getTruckRegistrationNos env o now userId w).2.
Proof.
  intros Hws Hkey Htr. rewrite generateTinybirdToken_configured by done.
  destruct (tame_getTruckRegistrationNos env o now userId) as [_ Hsame].
  destruct (Hsame (counted w) w eq_refl) as [Hres Hcache]. rewrite Htr in Hres.
  destruct (TruckFetcher.getTruckRegistrationNos env o now userId (counted w))
    as [r w1]; simpl in Hres, Hcache; subst r.
  destruct trucks as [| x l]; simpl; [done |].
  by destruct (jwt_sign _ _).
Qed.


End Trucks.


(** ** The proxy handler, one request at a time (index.ts) *)
Section Handler.
Context `{!Externals}.

Ltac run_monad :=
  unfold try_catch, bind, ret, throw, lift, console_warn, redis_get,
    redis_setex, count_mint in *.


(** The lookup segment: a hit goes on to forwarding, anything else (a miss,
    a failed lookup) to minting; the key space is not touched. *)
Lemma step_lookup env o userId r now w :
  let '(p, w') := Proxy.step env o userId r now Proxy.AtLookup w in
  cache w' = cache w /\ mints w' = mints w
  /\ warnings w `prefix_of` warnings w'
  /\ match pool_lookup_fault o with
     | Some _ =>
         p = Proxy.AtMint
         /\ "Cache lookup failed, proceeding without cache:" ∈ warnings w'
     | None =>
         match Redis.get (cache w) now (Proxy.token_key userId) with
         | Some token =>
             if truthy (Some token) then p = Proxy.AtForward token
             else p = Proxy.AtMint
         | None => p = Proxy.AtMint
         end
     end.
Proof.
  unfold Proxy.step, Proxy.lookupToken. run_monad.
  destruct (pool_lookup_fault o) as [e |]; simpl.
  - repeat split; [by apply prefix_app_r | set_solver].
  - destruct (Redis.get (cache w) now (Proxy.token_key userId)) as [token |];
      [| done].
    destruct (truthy (Some token)) eqn:E; simpl in E; rewrite E; done.
Qed.

(** The store segment always goes on to forwarding. *)
Lemma step_store env o userId r now token w :
  let '(p, w') := Proxy.step env o userId r now (Proxy.AtStore token) w in
  p = Proxy.AtForward token
  /\ warnings w `prefix_of` warnings w' /\ mints w' = mints w
  /\ match pool_store_fault o with
     | Some _ =>
         cache w' = cache w
         /\ "Failed to cache token, proceeding anyway:" ∈ warnings w'
     | None =>
         cache w' = Redis.setex (cache w) now (Proxy.token_key userId)
                                Proxy.tokenTTL token
     end.
Proof.
  unfold Proxy.step, Proxy.storeToken. run_monad.
  destruct (pool_store_fault o) as [e |]; simpl.
  - repeat split; [by apply prefix_app_r | set_solver].
  - done.
Qed.

Lemma readBody_total o r w :
  exists body w', Proxy.readBody o r w = (Ok body, w')
                  /\ cache w' = cache w /\ mints w' = mints w.
Proof.
  unfold Proxy.readBody. run_monad.
  repeat (case_match; simplify_eq; simpl); eauto.
Qed.

(** Forwarding never writes to the key space and mints nothing. *)
Lemma forward_world env o r token w :
  cache (Proxy.forward env o r token w).2 = cache w
  /\ mints (Proxy.forward env o r token w).2 = mints w.
Proof.
  unfold Proxy.forward. destruct (negb (truthy (TINYBIRD_API_URL env))); [done |].
  destruct (readBody_total o r w) as (body & w' & Hb & Hc & Hm).
  unfold bind. rewrite Hb. run_monad.
  by destruct (axios o _).
Qed.

(** With the backend origin configured and the backend answering, the
    forwarding segment hands the backend's answer back. *)
Lemma forward_succeeds env o r token w :
  truthy (TINYBIRD_API_URL env) = true ->
  (forall q, exists response, axios o q = Ok response) ->
  exists response,
    (Proxy.forward env o r token w).1 = Ok (Proxy.forwardResponse response).
Proof.
  intros Hurl Hup. unfold Proxy.forward. rewrite Hurl. cbn [negb].
  destruct (readBody_total o r w) as (body & w' & Hb & _).
  unfold bind. rewrite Hb. run_monad.
  match goal with |- context [axios o ?q] => destruct (Hup q) as [resp Hq] end.
  rewrite Hq. by exists resp.
Qed.

Lemma step_forward env o userId r now token w :
  let '(p, w') := Proxy.step env o userId r now (Proxy.AtForward token) w in
  cache w' = cache w /\ mints w' = mints w
  /\ warnings w `prefix_of` warnings w'
  /\ (truthy (TINYBIRD_API_URL env) = true ->
      (forall q, exists response, axios o q = Ok response) ->
      exists response, p = Proxy.Finished (Proxy.forwardResponse response)).
Proof.
  unfold Proxy.step.
  pose proof (forward_world env o r token w) as [Hc Hm].
  destruct (tame_forward env o r token) as [Hmono _].
  destruct (Hmono w) as [Hpre _].
  pose proof (forward_succeeds env o r token w) as Hok.
  destruct (Proxy.forward env o r token w) as [[res | e] w']; simpl in *.
  - repeat split; try done. intros Hurl Hup.
    destruct (Hok Hurl Hup) as [resp Hresp]. exists resp. congruence.
  - repeat split; try done. intros Hurl Hup.
    destruct (Hok Hurl Hup) as [resp Hresp]. discriminate.
Qed.

(** The mint segment: the outcome of [generateTinybirdToken] decides. *)
Lemma step_mint env o userId r now w :
  Proxy.step env o userId r now Proxy.AtMint w
  = match Tinybird.generateTinybirdToken env o now userId w with
    | (Ok token, w') => (Proxy.AtStore token, w')
    | (Throw e, w') => (Proxy.Finished (Proxy.mintCatch e), w')
    end.
Proof. reflexivity. Qed.

End Handler.

(** ** End-to-end behaviour of one request *)
Section EndToEnd.
Context `{!Externals}.

(** C4: for an identity whose authorized-resource set is empty, minting
    fails with the no-resources error (status 404), the response of the
    request is 404, no credential is issued and the key space is left as
    it was: no credential entry is written. *)
Theorem empty_resource_set_rejected env o userId r t_lookup t_mint t_store w :
  truthy (TINYBIRD_WORKSPACE_ID env) = true ->
  truthy (TINYBIRD_SIGNING_KEY env) = true ->
  (Proxy.step env o userId r t_lookup Proxy.AtLookup w).1 = Proxy.AtMint ->
  (TruckFetcher.getTruckRegistrationNos env o t_mint userId w).1 = Ok [] ->
  (Tinybird.generateTinybirdToken env o t_mint userId w).1
  = Throw (TinybirdError ("No truck registration numbers found for user "
                          +:+ userId) (Some 404))
  /\ (Proxy.handler env o userId r t_lookup t_mint t_store w).1
     = Proxy.Finished
         (json [("error", "No truck registration numbers found for user "
                          +:+ userId)] 404)
  /\ cache (Proxy.handler env o userId r t_lookup t_mint t_store w).2 = cache w.
Proof.
  intros Hws Hkey Hmiss Hempty.
  split.
  { by destruct (generateTinybirdToken_resolved env o t_mint userId w [] Hws Hkey Hempty). }
  unfold Proxy.handler. cbn [Proxy.run].
  pose proof (step_lookup env o userId r t_lookup w) as H1.
  destruct (Proxy.step env o userId r t_lookup Proxy.AtLookup w) as [p1 w1].
  simpl in Hmiss. subst p1. destruct H1 as (Hc1 & _).
  rewrite step_mint.
  destruct (tame_getTruckRegistrationNos env o t_mint userId) as [_ Hsame].
  destruct (Hsame w1 w Hc1) as [Hres _]. rewrite Hempty in Hres.
  destruct (generateTinybirdToken_resolved env o t_mint userId w1 [] Hws Hkey Hres)
    as [Hgen Hgc].
  rewrite (getTruckRegistrationNos_empty_no_write env o t_mint userId w1 Hres) in Hgc.
  destruct (Tinybird.generateTinybirdToken env o t_mint userId w1) as [res w2].
  simpl in Hgen, Hgc. subst res. simpl. split; [done | congruence].
Qed.


(** C2 (as the code has it): the credential is stored with a TTL of 3600
    seconds, equal to the validity window and not shorter; the entry
    lapses at store time + 3600 s, not before the credential's expiry
    [floor(mint time / 1000) + 3600], so a hit can return a credential at
    most the store delay past that expiry. *)
Theorem cache_ttl_equals_validity env o userId r t_lookup t_mint t_store w token :
  truthy (TINYBIRD_WORKSPACE_ID env) = true ->
  truthy (TINYBIRD_SIGNING_KEY env) = true ->
  (Proxy.step env o userId r t_lookup Proxy.AtLookup w).1 = Proxy.AtMint ->
  (Tinybird.generateTinybirdToken env o t_mint userId w).1 = Ok token ->
  pool_store_fault o = None ->
  t_mint <= t_store ->
  Proxy.tokenTTL = Tinybird.validity
  /\ cache (Proxy.handler env o userId r t_lookup t_mint t_store w).2
       !! Proxy.token_key userId
     = Some (Redis.Entry token (t_store + 3600 * 1000))
  /\ exists trucks,
       let payload :=
         Tinybird.make_payload (default "" (TINYBIRD_WORKSPACE_ID env))
                               userId t_mint trucks in
       jwt_sign payload (default "" (TINYBIRD_SIGNING_KEY env)) = Ok token
       /\ exp payload = t_mint / 1000 + 3600
       /\ exp payload * 1000 <= t_store + 3600 * 1000
       /\ forall t,
            Redis.get (cache (Proxy.handler env o userId r t_lookup t_mint
                                t_store w).2) t (Proxy.token_key userId)
            = Some token ->
            t < exp payload * 1000 + (t_store - 1000 * (t_mint / 1000)).
Proof.
  intros Hws Hkey Hmiss Hmint Hstore Hle.
  split; [reflexivity |].
  assert (Hentry :
    cache (Proxy.handler env o userId r t_lookup t_mint t_store w).2
      !! Proxy.token_key userId
    = Some (Redis.Entry token (t_store + 3600 * 1000))).
  { unfold Proxy.handler. cbn [Proxy.run].
    pose proof (step_lookup env o userId r t_lookup w) as H1.
    destruct (Proxy.step env o userId r t_lookup Proxy.AtLookup w) as [p1 w1].
    simpl in Hmiss. subst p1. destruct H1 as (Hc1 & _).
    rewrite step_mint.
    destruct (tame_generateTinybirdToken env o t_mint userId) as [_ Hsame].
    destruct (Hsame w1 w Hc1) as [Hres _]. rewrite Hmint in Hres.
    destruct (Tinybird.generateTinybirdToken env o t_mint userId w1) as [res w2].
    simpl in Hres. subst res.
    pose proof (step_store env o userId r t_store token w2) as H3.
    destruct (Proxy.step env o userId r t_store (Proxy.AtStore token) w2)
      as [p3 w3]. destruct H3 as (-> & _ & _ & Hst). rewrite Hstore in Hst.
    pose proof (step_forward env o userId r t_store token w3) as H4.
    destruct (Proxy.step env o userId r t_store (Proxy.AtForward token) w3)
      as [p4 w4]. destruct H4 as (Hc4 & _). simpl.
    rewrite Hc4, Hst. unfold Redis.setex. by rewrite lookup_insert_eq. }
  split; [exact Hentry |].
  rewrite generateTinybirdToken_configured in Hmint by done.
  destruct (TruckFetcher.getTruckRegistrationNos env o t_mint userId (counted w))
    as [[trucks | e] w1]; [| discriminate].
  destruct (Nat.eqb (length trucks) 0); [discriminate |].
  exists trucks. cbn zeta.
  destruct (jwt_sign _ _) as [tk | e] eqn:Hsign; [| discriminate].
  simpl in Hmint. injection Hmint as ->.
  split; [done |]. split; [reflexivity |].
  assert (Hfloor : 1000 * (t_mint / 1000) <= t_mint)
    by (apply Z.mul_div_le; lia).
  split; [simpl; unfold Tinybird.validity; lia |].
  intros t Hget. unfold Redis.get in Hget. rewrite Hentry in Hget. simpl in Hget.
  destruct (Z.ltb_spec t (t_store + 3600 * 1000)); [| discriminate].
  simpl. unfold Tinybird.validity. lia.
Qed.

End EndToEnd.

Lemma empty_resource_set_rejected_witness :
  (Proxy.handler (H := demo_externals) demo_env (demo_oracle []) "u2"
     demo_request 0 5 9 empty_world).1
  = Proxy.Finished
      (json [("error", "No truck registration numbers found for user u2")] 404)
  /\ cache (Proxy.handler (H := demo_externals) demo_env (demo_oracle []) "u2"
              demo_request 0 5 9 empty_world).2 = ∅.
Proof.
  apply (@empty_resource_set_rejected demo_externals demo_env (demo_oracle [])
           "u2" demo_request 0 5 9 empty_world); vm_compute; reflexivity.
Defined.


Lemma cache_ttl_equals_validity_witness :
  cache (Proxy.handler (H := demo_externals) demo_env (demo_oracle ["REG1"])
           "u1" demo_request 0 999 1500 empty_world).2
    !! Proxy.token_key "u1"
  = Some (Redis.Entry "user_u1_jwt.3600" (1500 + 3600 * 1000)).
Proof.
  apply (@cache_ttl_equals_validity demo_externals demo_env
           (demo_oracle ["REG1"]) "u1" demo_request 0 999 1500 empty_world
           "user_u1_jwt.3600"); vm_compute; (reflexivity || discriminate).
Defined.

(** C2 as stated fails: minted at 999 ms with [exp] = 3600 s and stored with
    TTL 3600 s, the credential is still served by the cache at 3600500 ms,
    half a second after its expiry instant; the TTL is not shorter than
    the validity window. *)
Lemma served_past_expiry :
  let o := demo_oracle ["REG1"] in
  let w := (Proxy.handler (H := demo_externals) demo_env o "u1" demo_request
              0 999 999 empty_world).2 in
  let payload := Tinybird.make_payload "ws" "u1" 999 ["REG1"] in
  exists token,
    jwt_sign (Externals := demo_externals) payload "key" = Ok token
    /\ (Proxy.lookupToken o 3600500 "u1" w).1 = Ok (Some token)
    /\ exp payload * 1000 <= 3600500
    /\ ~ (Proxy.tokenTTL < Tinybird.validity).
Proof.
  exists "user_u1_jwt.3600". vm_compute.
  repeat split; try reflexivity; intros H; discriminate H.
Qed.

(** ** Concurrent requests of one user *)
Section SingleFlight.
Context `{!Externals}.

Ltac run_monad :=
  unfold try_catch, bind, ret, throw, lift, console_warn, redis_get,
    redis_setex, count_mint in *.

Lemma getToken_quiet o now key w :
  mints (Dragonfly.getToken o now key w).2 = mints w.
Proof.
  unfold Dragonfly.getToken. run_monad.
  by repeat (case_match; simplify_eq; simpl).
Qed.

Lemma setToken_quiet o now key v ttl w :
  mints (Dragonfly.setToken o now key v ttl w).2 = mints w.
Proof.
  unfold Dragonfly.setToken. run_monad.
  by repeat (case_match; simplify_eq; simpl).
Qed.

Lemma readCachedTrucks_quiet o now key w :
  mints (TruckFetcher.readCachedTrucks o now key w).2 = mints w.
Proof.
  unfold TruckFetcher.readCachedTrucks.
  pose proof (getToken_quiet o now key w) as Hg. run_monad.
  destruct (Dragonfly.getToken o now key w) as [[[data |] | e] w1];
    simpl in *; try done.
  by repeat (case_match; simplify_eq; simpl).
Qed.

Lemma fetchTrucks_quiet env o now userId key w :
  mints (TruckFetcher.fetchTrucks env o now userId key w).2 = mints w.
Proof.
  unfold TruckFetcher.fetchTrucks.
  pose proof (getTruckAccessForUser_world o userId w) as Hw.
  unfold try_catch, bind.
  destruct (PlanetScale.getTruckAccessForUser o userId w) as [[l | e] w1];
    simpl in Hw; subst w1.
  - destruct l as [| x l]; simpl; [done |].
    pose proof (setToken_quiet o now key (JSON_stringify (x :: l))
                  TruckFetcher.cacheTTL w) as Hs.
    destruct (Dragonfly.setToken _ _ _ _ _ w) as [[[] | e] w2]; simpl in *; done.
  - destruct (TruckFetcher.is_development env); simpl; done.
Qed.

Lemma getTruckRegistrationNos_quiet env o now userId w :
  mints (TruckFetcher.getTruckRegistrationNos env o now userId w).2 = mints w.
Proof.
  unfold TruckFetcher.getTruckRegistrationNos.
  pose proof (readCachedTrucks_quiet o now ("truck_access:" +:+ userId) w) as Hr.
  unfold bind.
  destruct (TruckFetcher.readCachedTrucks o now _ w) as [[[l |] | e] w1];
    simpl in *; try done.
  by rewrite fetchTrucks_quiet.
Qed.

(** Every invocation of [generateTinybirdToken] is counted once. *)
Lemma generateTinybirdToken_counts env o now userId w :
  mints (Tinybird.generateTinybirdToken env o now userId w).2 = S (mints w).
Proof.
  unfold Tinybird.generateTinybirdToken.
  unfold bind at 1. unfold count_mint. fold (counted w).
  unfold try_catch.
  destruct (negb (truthy (TINYBIRD_WORKSPACE_ID env))); [done |].
  destruct (negb (truthy (TINYBIRD_SIGNING_KEY env))); [done |].
  pose proof (getTruckRegistrationNos_quiet env o now userId (counted w)) as Hq.
  unfold bind at 1.
  destruct (TruckFetcher.getTruckRegistrationNos env o now userId (counted w))
    as [[trucks | e] w1]; simpl in Hq; [| done].
  destruct (Nat.eqb (length trucks) 0); [done |].
  run_monad. by destruct (jwt_sign _ _).
Qed.

Lemma step_mint_minted env o userId r now w :
  minted (Proxy.step env o userId r now Proxy.AtMint w).1
  /\ mints (Proxy.step env o userId r now Proxy.AtMint w).2 = S (mints w).
Proof.
  rewrite step_mint.
  pose proof (generateTinybirdToken_counts env o now userId w) as Hc.
  by destruct (Tinybird.generateTinybirdToken env o now userId w) as [[t | e] w'].
Qed.

(** A segment never raises the number of mints done plus mints still
    possible: a request mints at most once. *)
Lemma step_may_mint env o userId r now p w :
  (mints (Proxy.step env o userId r now p w).2
   + may_mint (Proxy.step env o userId r now p w).1
   <= mints w + may_mint p)%nat.
Proof.
  destruct p as [| | token | token | res].
  - pose proof (step_lookup env o userId r now w) as H1.
    destruct (Proxy.step env o userId r now Proxy.AtLookup w) as [p1 w1].
    destruct H1 as (_ & Hm & _). simpl. rewrite Hm. destruct p1; simpl; lia.
  - destruct (step_mint_minted env o userId r now w) as [Hmt Hc].
    rewrite Hc. destruct (Proxy.step _ _ _ _ _ _ _).1; simpl in *; (done || lia).
  - pose proof (step_store env o userId r now token w) as H3.
    destruct (Proxy.step env o userId r now (Proxy.AtStore token) w) as [p3 w3].
    destruct H3 as (-> & _ & Hm & _). simpl. lia.
  - unfold Proxy.step. pose proof (forward_world env o r token w) as [_ Hm].
    destruct (Proxy.forward env o r token w) as [[res | e] w']; simpl in *; lia.
  - simpl. lia.
Qed.

Lemma may_mint_insert (ps : list Proxy.phase) (i : nat) (p p' : Proxy.phase) :
  ps !! i = Some p ->
  (sum_list_with may_mint (<[i := p']> ps) + may_mint p
   = sum_list_with may_mint ps + may_mint p')%nat.
Proof.
  revert i. induction ps as [| q ps IH]; intros [| i] Hi; simpl in *;
    try discriminate Hi.
  - injection Hi as ->. lia.
  - specialize (IH i Hi). lia.
Qed.

(** Whatever the schedule, [n] requests cause at most [n] mints. *)
Lemma any_schedule_bounded env o userId r (schedule : list (nat * Z)) :
  forall (s : list Proxy.phase * World),
    (mints (Proxy.concurrent_run env o userId r schedule s).2
     + sum_list_with may_mint (Proxy.concurrent_run env o userId r schedule s).1
     <= mints s.2 + sum_list_with may_mint s.1)%nat.
Proof.
  unfold Proxy.concurrent_run.
  induction schedule as [| ev schedule IH]; intros s; [simpl; lia |].
  cbn [foldl]. etrans; [apply IH |].
  unfold Proxy.concurrent_step.
  destruct (s.1 !! ev.1) as [p |] eqn:Hp; [| lia].
  pose proof (step_may_mint env o userId r ev.2 p s.2) as Hstep.
  destruct (Proxy.step env o userId r ev.2 p s.2) as [p' w']. simpl in *.
  pose proof (may_mint_insert s.1 ev.1 p p' Hp). lia.
Qed.

(** All lookups first: on an uncached identity each of them misses. *)
Lemma lookups_all_miss env o userId r (tl : nat -> Z) (k : nat) :
  forall (pre : list Proxy.phase) (w : World),
    (forall i, truthy (Redis.get (cache w) (tl i) (Proxy.token_key userId)) = false) ->
    exists w',
      Proxy.concurrent_run env o userId r
        (map (fun i => (i, tl i)) (seq (length pre) k))
        (pre ++ replicate k Proxy.AtLookup, w)
      = (pre ++ replicate k Proxy.AtMint, w')
      /\ cache w' = cache w /\ mints w' = mints w.
Proof.
  induction k as [| k IH]; intros pre w Hun; [by exists w |].
  cbn [seq map replicate]. unfold Proxy.concurrent_run. cbn [foldl].
  unfold Proxy.concurrent_step at 2. cbn [fst snd].
  rewrite lookup_app_r, Nat.sub_diag by lia. cbn [lookup list_lookup].
  pose proof (step_lookup env o userId r (tl (length pre)) w) as H1.
  destruct (Proxy.step env o userId r (tl (length pre)) Proxy.AtLookup w)
    as [p1 w1]. destruct H1 as (Hc1 & Hm1 & _ & Hp1).
  assert (p1 = Proxy.AtMint) as ->.
  { destruct (pool_lookup_fault o); [tauto |].
    specialize (Hun (length pre)).
    destruct (Redis.get _ _ _) as [tok |]; [| done]. by rewrite Hun in Hp1. }
  rewrite insert_app_r_alt, Nat.sub_diag by lia. cbn [insert list_insert].
  destruct (IH (pre ++ [Proxy.AtMint]) w1) as (w' & Hrun & Hc & Hm).
  { intros i. rewrite Hc1. apply Hun. }
  exists w'. rewrite length_app in Hrun. cbn [length] in Hrun.
  rewrite Nat.add_1_r in Hrun. rewrite <- !app_assoc in Hrun. cbn [app] in Hrun.
  unfold Proxy.concurrent_run in Hrun. rewrite Hrun.
  split; [done |]. split; congruence.
Qed.

(** Then all mints: every request mints for itself. *)
Lemma mints_all_run env o userId r (tm : nat -> Z) (k : nat) :
  forall (pre : list Proxy.phase) (w : World),
    exists post w',
      Proxy.concurrent_run env o userId r
        (map (fun i => (i, tm i)) (seq (length pre) k))
        (pre ++ replicate k Proxy.AtMint, w)
      = (pre ++ post, w')
      /\ length post = k /\ Forall minted post
      /\ mints w' = (mints w + k)%nat.
Proof.
  induction k as [| k IH]; intros pre w.
  { exists [], w. rewrite Nat.add_0_r. by repeat split. }
  cbn [seq map replicate]. unfold Proxy.concurrent_run. cbn [foldl].
  unfold Proxy.concurrent_step at 2. cbn [fst snd].
  rewrite lookup_app_r, Nat.sub_diag by lia. cbn [lookup list_lookup].
  pose proof (step_mint_minted env o userId r (tm (length pre)) w) as [Hmt Hcount].
  destruct (Proxy.step env o userId r (tm (length pre)) Proxy.AtMint w)
    as [p1 w1]. simpl in Hmt, Hcount.
  rewrite insert_app_r_alt, Nat.sub_diag by lia. cbn [insert list_insert].
  destruct (IH (pre ++ [p1]) w1) as (post & w' & Hrun & Hlen & Hall & Hm).
  exists (p1 :: post), w'. rewrite length_app in Hrun. cbn [length] in Hrun.
  rewrite Nat.add_1_r in Hrun. rewrite <- !app_assoc in Hrun. cbn [app] in Hrun.
  unfold Proxy.concurrent_run in Hrun. rewrite Hrun.
  split; [done |]. split; [simpl; lia |]. split; [by constructor | lia].
Qed.

(** C1 (as the code has it): there is no in-flight mint tracker.  For [n]
    concurrent requests on the same uncached identity whose cache lookups
    all complete before the first mint, [generateTinybirdToken] is invoked
    [n] times, once by each request, and every request goes on with the
    outcome of its own mint; none waits for another's. *)
Theorem concurrent_misses_mint_independently env o userId r
    (t_lookup t_mint : nat -> Z) (n : nat) (w : World) :
  (forall i, truthy (Redis.get (cache w) (t_lookup i) (Proxy.token_key userId))
             = false) ->
  exists phases w',
    Proxy.concurrent_run env o userId r
      (map (fun i => (i, t_lookup i)) (seq 0 n)
       ++ map (fun i => (i, t_mint i)) (seq 0 n))
      (replicate n Proxy.AtLookup, w)
    = (phases, w')
    /\ length phases = n
    /\ Forall minted phases
    /\ mints w' = (mints w + n)%nat.
Proof.
  intros Hun.
  destruct (lookups_all_miss env o userId r t_lookup n [] w Hun)
    as (w1 & Hrun1 & Hc1 & Hm1).
  destruct (mints_all_run env o userId r t_mint n [] w1)
    as (post & w' & Hrun2 & Hlen & Hall & Hm).
  exists post, w'. unfold Proxy.concurrent_run in *.
  rewrite foldl_app. simpl in Hrun1, Hrun2. rewrite Hrun1, Hrun2.
  split; [done |]. split; [done |]. split; [done | lia].
Qed.

End SingleFlight.

Lemma concurrent_misses_mint_independently_witness :
  exists phases w',
    Proxy.concurrent_run (H := demo_externals) demo_env (demo_oracle ["REG1"])
      "u1" demo_request
      (map (fun i => (i, 0)) (seq 0 3) ++ map (fun i => (i, 5)) (seq 0 3))
      (replicate 3 Proxy.AtLookup, empty_world)
    = (phases, w')
    /\ length phases = 3%nat /\ Forall minted phases /\ mints w' = 3%nat.
Proof.
  apply (@concurrent_misses_mint_independently demo_externals demo_env
           (demo_oracle ["REG1"]) "u1" demo_request (fun _ => 0) (fun _ => 5)
           3 empty_world).
  intros i. vm_compute. reflexivity.
Defined.

(** C1 as stated fails: two overlapping requests of user [u1] on an empty
    cache each run [generateTinybirdToken]; it is invoked twice, not once,
    and minted in different seconds the two credentials differ. *)
Lemma two_overlapping_requests_mint_twice :
  let '(phases, w) :=
    Proxy.concurrent_run (H := demo_externals) demo_env (demo_oracle ["REG1"])
      "u1" demo_request
      [(0%nat, 0); (1%nat, 100); (0%nat, 500); (1%nat, 1500)]
      ([Proxy.AtLookup; Proxy.AtLookup], empty_world) in
  mints w = 2%nat /\ mints w <> 1%nat
  /\ phases = [Proxy.AtStore "user_u1_jwt.3600";
               Proxy.AtStore "user_u1_jwt.3601"].
Proof. vm_compute. repeat split; intros H; discriminate H. Qed.

(** Without overlap the cache does its work: the second request finds the
    credential the first one stored, and there is one mint. *)
Example sequential_requests_mint_once :
  let '(phases, w) :=
    Proxy.concurrent_run (H := demo_externals) demo_env (demo_oracle ["REG1"])
      "u1" demo_request
      [(0%nat, 0); (0%nat, 100); (0%nat, 200); (0%nat, 300);
       (1%nat, 400); (1%nat, 500)]
      ([Proxy.AtLookup; Proxy.AtLookup], empty_world) in
  mints w = 1%nat
  /\ phases = [Proxy.Finished (Proxy.forwardResponse demo_response);
               Proxy.Finished (Proxy.forwardResponse demo_response)].
Proof. vm_compute. split; reflexivity. Qed.

(** ** Cache keys *)
Section Keys.
Context `{!Externals}.

(** The credential is written under [tinybird_token:<subject>] with a TTL
    of 3600 seconds. *)
Lemma credential_key o now userId token w :
  pool_store_fault o = None ->
  cache (Proxy.storeToken o now userId token w).2
  = <["tinybird_token:" +:+ userId := Redis.Entry token (now + 3600 * 1000)]>
      (cache w).
Proof. intros Hok. unfold Proxy.storeToken, try_catch, redis_setex. by rewrite Hok. Qed.

(** The authorized-resource set read from the database is written with a
    TTL of 300 seconds; [setToken] prefixes the key it is given, so the
    entry lands under [tinybird_token:truck_access:<subject>]. *)
Lemma resource_set_key env o now userId w trucks :
  (TruckFetcher.readCachedTrucks o now ("truck_access:" +:+ userId) w).1 = Ok None ->
  planetscale_execute o userId = Ok (Some trucks) ->
  trucks <> [] ->
  dragonfly_setex_fault o = None ->
  cache (TruckFetcher.getTruckRegistrationNos env o now userId w).2
  = <["tinybird_token:" +:+ ("truck_access:" +:+ userId)
      := Redis.Entry (JSON_stringify trucks) (now + 300 * 1000)]> (cache w).
Proof.
  intros Hmiss Hdb Hne Hok. unfold TruckFetcher.getTruckRegistrationNos.
  pose proof (readCachedTrucks_read_only o now ("truck_access:" +:+ userId) w) as Hr.
  unfold bind at 1.
  destruct (TruckFetcher.readCachedTrucks o now _ w) as [res w1].
  simpl in Hmiss, Hr. subst res.
  unfold TruckFetcher.fetchTrucks, PlanetScale.getTruckAccessForUser,
    Dragonfly.setToken, try_catch, bind, lift, ret, redis_setex.
  rewrite Hdb, Hok. destruct trucks as [| x l]; [done |]. simpl.
  by rewrite Hr.
Qed.

End Keys.

(** C3 on the code: after the resource set of user [u1] is fetched, the key
    space holds it under [tinybird_token:truck_access:u1] (lapsing 300 s
    later) and holds nothing under [truck_access:u1]. *)
Theorem truck_access_key_is_prefixed :
  let w := (TruckFetcher.getTruckRegistrationNos (H := demo_externals)
              demo_env (demo_oracle ["REG1"]) 0 "u1" empty_world).2 in
  cache w !! "truck_access:u1" = None
  /\ cache w !! "tinybird_token:truck_access:u1"
     = Some (Redis.Entry "[REG1]" (300 * 1000)).
Proof. vm_compute. split; reflexivity. Qed.

(** The two key families overlap: a subject named [truck_access:u1] is
    served the cached resource set of [u1] as its credential. *)
Example key_families_collide :
  let o := demo_oracle ["REG1"] in
  let w := (TruckFetcher.getTruckRegistrationNos (H := demo_externals)
              demo_env o 0 "u1" empty_world).2 in
  (Proxy.lookupToken o 1 "truck_access:u1" w).1 = Ok (Some "[REG1]").
Proof. vm_compute. reflexivity. Qed.

(** ** Error bodies *)

(** The error responses of the proxy handler carry an [error] field only. *)
Lemma proxy_error_bodies_lack_code (e : exn) :
  error_shape (res_body (Proxy.mintCatch e)) = false
  /\ error_shape (res_body (Proxy.proxyCatch e)) = false.
Proof. destruct e; split; reflexivity. Qed.

(** C8 on the code: the 404 answered to an authenticated user without
    authorized resources has the body [{ error }], without [code] and
    [timestamp]. *)
Theorem mint_error_body_lacks_code :
  exists res,
    (Proxy.handler (H := demo_externals) demo_env (demo_oracle []) "u2"
       demo_request 0 5 9 empty_world).1 = Proxy.Finished res
    /\ res_status res = 404
    /\ res_body res
       = JsonObject [("error", "No truck registration numbers found for user u2")]
    /\ has_field "code" (res_body res) = false
    /\ has_field "timestamp" (res_body res) = false
    /\ error_shape (res_body res) = false.
Proof. eexists. vm_compute. repeat split; reflexivity. Qed.

(** ** The connection pool *)

(** C6 on the code: with [minConnections = maxConnections = 2], a request
    that arrives while the second warm-up connection is still connecting
    gets a third connection; once the warm-up completes the pool holds 3
    connections (2 idle, 1 in use), above the cap of 2. *)
Theorem warmup_race_exceeds_cap :
  exists s,
    Pool.run slow_warmup (Pool.construct two_two) = Some s
    /\ Pool.maxConnections (Pool.config s) = 2%nat
    /\ Pool.total (Pool.getStats s) = 3%nat
    /\ (length (Pool.available s) + size (Pool.inUse s))%nat = 3%nat
    /\ Pool.outcome s !! 7%nat = Some (Pool.Resolved 2%nat).
Proof. eexists. vm_compute. repeat split; reflexivity. Qed.

(** At the cap with nothing idle, [acquire] hands out no connection: the
    caller waits. *)
Lemma acquire_at_cap_waits (who : Pool.caller) (s : Pool.State) :
  Pool.available s = [] ->
  (Pool.maxConnections (Pool.config s) <= length (Pool.pool s) + Pool.creating s)%nat ->
  Pool.acquire who s = Pool.wait who s.
Proof.
  intros Hav Hcap. unfold Pool.acquire. rewrite Hav. simpl.
  destruct (Nat.ltb_spec (length (Pool.pool s) + Pool.creating s)
                         (Pool.maxConnections (Pool.config s))); [lia | done].
Qed.

(** A waiting caller polls in vain while nothing is idle, and is rejected
    with the pool-timeout error when its timer fires. *)
Lemma waiting_until_timeout (who : Pool.caller) (s : Pool.State) :
  Pool.available s = [] ->
  Pool.poll who s = s
  /\ Pool.outcome (Pool.timeout who s) !! who
     = Some (Pool.Rejected "Connection pool timeout - no available connections").
Proof.
  intros Hav. unfold Pool.poll, Pool.timeout, Pool.settle. rewrite Hav. simpl.
  split; [done | apply lookup_insert_eq].
Qed.

(** ** Invariants of the connection pool (connectionPool.ts) *)
Section PoolInvariants.

Lemma pop_snoc (l rest : list Pool.conn) (c : Pool.conn) :
  Pool.pop l = Some (c, rest) -> l = rest ++ [c].
Proof.
  unfold Pool.pop. destruct (reverse l) as [| x r] eqn:E; [done |].
  intros [= <- <-]. rewrite <- (reverse_involutive l), E.
  apply reverse_cons.
Qed.

Lemma pop_nonempty (l : list Pool.conn) :
  (0 < length l)%nat -> is_Some (Pool.pop l).
Proof.
  unfold Pool.pop. intros Hl. destruct (reverse l) as [| x r] eqn:E; [| eauto].
  apply (f_equal length) in E. rewrite length_reverse in E. simpl in E. lia.
Qed.

Lemma remove_first_sublist (c : Pool.conn) (l : list Pool.conn) :
  Pool.remove_first c l `sublist_of` l.
Proof.
  induction l as [| y l IH]; simpl; [constructor |].
  destruct (Nat.eqb c y); [by apply sublist_cons | by apply sublist_skip].
Qed.

(** On a list without duplicates, [indexOf] / [splice] removes the element
    altogether. *)
Lemma remove_first_gone (c : Pool.conn) (l : list Pool.conn) :
  NoDup l -> c ∉ Pool.remove_first c l.
Proof.
  induction l as [| y l IH]; simpl; intros Hnd; [apply not_elem_of_nil |].
  apply NoDup_cons in Hnd as [Hy Hnd].
  destruct (Nat.eqb_spec c y) as [-> | Hne]; [done |].
  apply not_elem_of_cons. split; [done | by apply IH].
Qed.

Lemma pool_ok_shrink p a u pg f pd sl cr p' a' (u' pg' : gset Pool.conn) :
  p' `sublist_of` p -> a' `sublist_of` a -> u' ⊆ u -> pg' ⊆ pg ->
  pool_ok p a u pg f pd sl cr -> pool_ok p' a' u' pg' f pd sl cr.
Proof.
  intros Hp Ha Hu Hpg (H1 & H2 & H3 & H4 & H5 & H6 & H7 & H8).
  assert (Hp' : forall c, c ∈ p' -> c ∈ p) by (intros; by eapply elem_of_sublist).
  assert (Ha' : forall c, c ∈ a' -> c ∈ a) by (intros; by eapply elem_of_sublist).
  unfold pool_ok. split_and!; try done.
  - exact (sublist_NoDup _ _ H1 Hp).
  - exact (sublist_NoDup _ _ H2 Ha).
  - intros c Hc. destruct (H3 c (Ha' c Hc)) as [Hcu Hcg].
    split; intros Hin;
      [exact (Hcu (elem_of_weaken _ _ _ Hin Hu))
      | exact (Hcg (elem_of_weaken _ _ _ Hin Hpg))].
  - intros c Hc Hin.
    exact (H4 c (elem_of_weaken _ _ _ Hc Hu) (elem_of_weaken _ _ _ Hin Hpg)).
  - intros c Hc. apply (H5 c).
    destruct Hc as [Hc | [Hc | [Hc | Hc]]].
    + left. by apply Hp'.
    + right; left. by apply Ha'.
    + right; right; left. exact (elem_of_weaken _ _ _ Hc Hu).
    + right; right; right. exact (elem_of_weaken _ _ _ Hc Hpg).
Qed.

Lemma pool_ok_start p a u pg f pd sl cr x :
  pool_ok p a u pg f pd sl cr ->
  pool_ok p a u pg (S f) (<[f := (x, Pool.Connecting)]> pd) sl (S cr).
Proof.
  intros (H1 & H2 & H3 & H4 & H5 & H6 & H7 & H8).
  assert (Hf : pd !! f = None).
  { destruct (pd !! f) eqn:E; [| done]. assert (f < f)%nat; [| lia].
    apply H6. by rewrite E. }
  unfold pool_ok. split_and!; try done.
  - intros c Hc. destruct (H5 c Hc) as [Hlt Hn]. split; [lia |].
    rewrite lookup_insert_ne by lia. done.
  - intros c Hc. destruct (decide (c = f)) as [-> | Hne]; [lia |].
    rewrite lookup_insert_ne in Hc by done. specialize (H6 c Hc). lia.
  - intros slots Hs. destruct (H7 slots Hs) as [Hnd Hin]. split; [done |].
    intros c Hc. destruct (Hin c Hc) as [pr Hpr].
    exists pr. rewrite lookup_insert_ne; [done |].
    intros <-. rewrite Hf in Hpr. done.
  - rewrite map_filter_insert_True by done.
    rewrite map_size_insert_None; [by rewrite H8 |].
    apply map_lookup_filter_None. by left.
Qed.

Lemma pool_ok_finish p a u pg f pd sl cr c x ok :
  pd !! c = Some (x, Pool.Connecting) ->
  pool_ok p a u pg f pd sl cr ->
  pool_ok p a u pg f (<[c := (x, Pool.Returned ok)]> pd) sl (pred cr).
Proof.
  intros Hc (H1 & H2 & H3 & H4 & H5 & H6 & H7 & H8).
  unfold pool_ok. split_and!; try done.
  - intros c0 Hc0. destruct (H5 c0 Hc0) as [Hlt Hn]. split; [done |].
    rewrite lookup_insert_ne; [done |]. intros <-. congruence.
  - intros c0 Hc0. destruct (decide (c0 = c)) as [-> | Hne].
    + apply H6. by rewrite Hc.
    + rewrite lookup_insert_ne in Hc0 by done. by apply H6.
  - intros slots Hs. destruct (H7 slots Hs) as [Hnd Hin]. split; [done |].
    intros c0 Hc0. destruct (Hin c0 Hc0) as [pr Hpr].
    destruct (decide (c0 = c)) as [-> | Hne].
    + rewrite lookup_insert_eq. rewrite Hc in Hpr. injection Hpr as -> _. eauto.
    + rewrite lookup_insert_ne by done. eauto.
  - rewrite map_filter_insert_False by done.
    rewrite map_filter_delete, map_size_delete_Some; [by rewrite H8 |].
    exists (x, Pool.Connecting). by apply map_lookup_filter_Some.
Qed.

(** Forgetting a returned call whose connection is counted from now on in
    the collections [p'], [a'], [u']. *)
Lemma pool_ok_adopt p a u pg f pd sl cr c x ok p' a' (u' : gset Pool.conn) :
  pd !! c = Some (x, Pool.Returned ok) ->
  (forall slots, sl = Some slots -> c ∉ slots) ->
  (p' = p \/ p' = p ++ [c]) ->
  (a' = a /\ (u' = u \/ u' = u ∪ {[c]}) \/ a' = a ++ [c] /\ u' = u) ->
  pool_ok p a u pg f pd sl cr ->
  pool_ok p' a' u' pg f (delete c pd) sl cr.
Proof.
  intros Hc Hsl Hp Hau (H1 & H2 & H3 & H4 & H5 & H6 & H7 & H8).
  assert (Hlt : (c < f)%nat) by (apply H6; by rewrite Hc).
  assert (Hnp : c ∉ p) by (intros Hin; destruct (H5 c) as [_ ?]; [tauto | congruence]).
  assert (Hna : c ∉ a) by (intros Hin; destruct (H5 c) as [_ ?]; [tauto | congruence]).
  assert (Hnu : c ∉ u) by (intros Hin; destruct (H5 c) as [_ ?]; [tauto | congruence]).
  assert (Hng : c ∉ pg) by (intros Hin; destruct (H5 c) as [_ ?]; [tauto | congruence]).
  assert (Hp' : forall y, y ∈ p' -> y ∈ p \/ y = c).
  { intros y Hy. destruct Hp as [-> | ->]; [by left |].
    apply elem_of_app in Hy as [? | ?%list_elem_of_singleton]; tauto. }
  assert (Ha' : forall y, y ∈ a' -> y ∈ a \/ y = c /\ u' = u).
  { intros y Hy. destruct Hau as [[-> _] | [-> ->]]; [by left |].
    apply elem_of_app in Hy as [? | ?%list_elem_of_singleton]; tauto. }
  assert (Hu' : forall y, y ∈ u' -> y ∈ u \/ y = c /\ a' = a).
  { intros y Hy. destruct Hau as [[-> [-> | ->]] | [-> ->]]; [by left | | by left].
    apply elem_of_union in Hy as [? | ?%elem_of_singleton]; tauto. }
  assert (Hlive : forall y, y ∈ p' \/ y ∈ a' \/ y ∈ u' \/ y ∈ pg ->
                            y = c \/ (y ∈ p \/ y ∈ a \/ y ∈ u \/ y ∈ pg)).
  { intros y [Hy | [Hy | [Hy | Hy]]].
    - destruct (Hp' y Hy); tauto.
    - destruct (Ha' y Hy); tauto.
    - destruct (Hu' y Hy); tauto.
    - tauto. }
  unfold pool_ok. split_and!.
  - destruct Hp as [-> | ->]; [done |]. apply NoDup_app. split_and!; try done.
    + intros y Hy ->%list_elem_of_singleton. done.
    + apply NoDup_singleton.
  - destruct Hau as [[-> _] | [-> _]]; [done |].
    apply NoDup_app. split_and!; try done.
    + intros y Hy ->%list_elem_of_singleton. done.
    + apply NoDup_singleton.
  - intros y Hy. destruct (Ha' y Hy) as [Hin | [-> ->]]; [| done].
    destruct (H3 y Hin) as [Hyu Hyg]. split; [| done].
    intros Hyu'. destruct (Hu' y Hyu') as [? | [-> ?]]; done.
  - intros y Hy. destruct (Hu' y Hy) as [Hin | [-> _]]; [by apply H4 | done].
  - intros y Hy. destruct (Hlive y Hy) as [-> | Hold].
    + split; [done | apply lookup_delete_eq].
    + destruct (H5 y Hold) as [? Hn]. split; [done |].
      destruct (decide (y = c)) as [-> | Hne]; [apply lookup_delete_eq |].
      by rewrite lookup_delete_ne.
  - intros y Hy. destruct (decide (y = c)) as [-> | Hne]; [done |].
    rewrite lookup_delete_ne in Hy by done. by apply H6.
  - intros slots Hs. destruct (H7 slots Hs) as [Hnd Hin]. split; [done |].
    intros y Hy. destruct (Hin y Hy) as [pr Hpr]. exists pr.
    rewrite lookup_delete_ne; [done |]. intros <-. by apply (Hsl slots Hs).
  - rewrite map_filter_delete, map_size_delete_None; [done |].
    apply map_lookup_filter_None. right. intros y Hy. rewrite Hc in Hy.
    by injection Hy as <-.
Qed.

Lemma pool_ok_take p a u pg f pd sl cr c rest :
  Pool.pop a = Some (c, rest) ->
  pool_ok p a u pg f pd sl cr -> pool_ok p rest (u ∪ {[c]}) pg f pd sl cr.
Proof.
  intros ->%pop_snoc (H1 & H2 & H3 & H4 & H5 & H6 & H7 & H8).
  apply NoDup_app in H2 as (Hrest & Hdisj & _).
  assert (Hc : c ∈ rest ++ [c]) by (apply elem_of_app; right; by apply list_elem_of_singleton).
  unfold pool_ok. split_and!; try done.
  - intros y Hy. destruct (H3 y) as [Hyu Hyg]; [apply elem_of_app; by left |].
    split; [| done]. intros [Hin | Heq%elem_of_singleton]%elem_of_union; [done |].
    apply (Hdisj y Hy). by apply list_elem_of_singleton.
  - intros y [Hin | Heq%elem_of_singleton]%elem_of_union; [by apply H4 |].
    subst y. by destruct (H3 c Hc).
  - intros y Hy. apply (H5 y). destruct Hy as [Hy | [Hy | [Hy | Hy]]].
    + by left.
    + right; left. apply elem_of_app. by left.
    + apply elem_of_union in Hy as [Hy | ->%elem_of_singleton];
        [by right; right; left | by right; left].
    + by right; right; right.
Qed.

Lemma pool_ok_release p a u pg f pd sl cr c :
  c ∈ u ->
  pool_ok p a u pg f pd sl cr ->
  pool_ok p a (u ∖ {[c]}) (pg ∪ {[c]}) f pd sl cr.
Proof.
  intros Hc (H1 & H2 & H3 & H4 & H5 & H6 & H7 & H8).
  unfold pool_ok. split_and!; try done.
  - intros y Hy. destruct (H3 y Hy) as [Hyu Hyg]. split.
    + intros [? _]%elem_of_difference. done.
    + intros [Hin | ->%elem_of_singleton]%elem_of_union; done.
  - intros y [Hin Hne]%elem_of_difference
             [Hin' | Heq%elem_of_singleton]%elem_of_union.
    + by apply (H4 y).
    + apply Hne. by apply elem_of_singleton.
  - intros y Hy. apply (H5 y). destruct Hy as [Hy | [Hy | [Hy | Hy]]].
    + by left.
    + by right; left.
    + apply elem_of_difference in Hy as [Hy _]. by right; right; left.
    + apply elem_of_union in Hy as [Hy | ->%elem_of_singleton];
        [by right; right; right | by right; right; left].
Qed.

Lemma pool_ok_idle p a u pg f pd sl cr c :
  c ∈ pg ->
  pool_ok p a u pg f pd sl cr ->
  pool_ok p (a ++ [c]) u (pg ∖ {[c]}) f pd sl cr.
Proof.
  intros Hc (H1 & H2 & H3 & H4 & H5 & H6 & H7 & H8).
  assert (Hna : c ∉ a) by (intros Hin; by destruct (H3 c Hin)).
  assert (Hnu : c ∉ u) by (intros Hin; by apply (H4 c)).
  unfold pool_ok. split_and!; try done.
  - apply NoDup_app. split_and!; [done | | apply NoDup_singleton].
    intros y Hy ->%list_elem_of_singleton. done.
  - intros y [Hy | ->%list_elem_of_singleton]%elem_of_app.
    + destruct (H3 y Hy) as [Hyu Hyg]. split; [done |].
      intros [? _]%elem_of_difference. done.
    + split; [done |]. intros [_ Hne]%elem_of_difference.
      apply Hne. by apply elem_of_singleton.
  - intros y Hy [Hin _]%elem_of_difference. by apply (H4 y).
  - intros y Hy. apply (H5 y). destruct Hy as [Hy | [Hy | [Hy | Hy]]].
    + by left.
    + apply elem_of_app in Hy as [Hy | ->%list_elem_of_singleton];
        [by right; left | by right; right; right].
    + by right; right; left.
    + apply elem_of_difference in Hy as [Hy _]. by right; right; right.
Qed.

Lemma pool_ok_slots p a u pg f pd sl cr (sl' : option (list Pool.conn)) :
  (forall slots', sl' = Some slots' ->
     NoDup slots'
     /\ forall c, c ∈ slots' -> exists pr, pd !! c = Some (Pool.ByInit, pr)) ->
  pool_ok p a u pg f pd sl cr -> pool_ok p a u pg f pd sl' cr.
Proof.
  intros Hsl (H1 & H2 & H3 & H4 & H5 & H6 & H7 & H8).
  unfold pool_ok. split_and!; done.
Qed.

(** *** The operations keep the bookkeeping *)

Lemma wf_start a s : pool_wf s -> pool_wf (Pool.createConnection_start a s).
Proof. apply pool_ok_start. Qed.

Lemma initializePool_start_spec n : forall s,
  pool_wf s ->
  let s' := Pool.initializePool_start n s in
  pool_wf s'
  /\ Pool.init_slots s' = Pool.init_slots s
  /\ Pool.fresh s' = (Pool.fresh s + n)%nat
  /\ Pool.config s' = Pool.config s
  /\ (forall c,
        Pool.pending s' !! c
        = if decide (Pool.fresh s <= c < Pool.fresh s + n)%nat
          then Some (Pool.ByInit, Pool.Connecting)
          else Pool.pending s !! c).
Proof.
  induction n as [| n IH]; intros s Hwf; simpl.
  { split_and!; try done; try lia. intros c. by rewrite decide_False by lia. }
  destruct (IH (Pool.createConnection_start Pool.ByInit s) (wf_start _ _ Hwf))
    as (Hwf' & Hsl & Hf & Hcfg & Hpd).
  split_and!; try done.
  { rewrite Hf. simpl. lia. }
  intros c. rewrite Hpd. simpl.
  destruct (decide (c = Pool.fresh s)) as [-> | Hne].
  - rewrite lookup_insert_eq. repeat case_decide; (done || lia).
  - rewrite lookup_insert_ne by done. repeat case_decide; (done || lia).
Qed.

Lemma wf_empty cfg : pool_wf (Pool.empty_state cfg).
Proof.
  unfold pool_wf, pool_ok. simpl. split_and!; try done; try (by constructor).
  - intros c [Hc | [Hc | [Hc | Hc]]];
      (by apply not_elem_of_nil in Hc) || (by apply not_elem_of_empty in Hc).
  - intros c [x Hx]. by rewrite lookup_empty in Hx.
Qed.

Lemma wf_construct cfg : pool_wf (Pool.construct cfg).
Proof.
  destruct (initializePool_start_spec (Pool.minConnections cfg)
              (Pool.empty_state cfg) (wf_empty cfg))
    as (Hwf & _ & _ & _ & Hpd).
  unfold Pool.construct, pool_wf. simpl.
  eapply pool_ok_slots; [| exact Hwf].
  intros slots [= <-]. split; [apply NoDup_seq |].
  intros c Hc%elem_of_seq. exists Pool.Connecting. rewrite Hpd. simpl.
  by rewrite decide_True by lia.
Qed.

Lemma wf_take who s s' :
  Pool.take who s = Some s' -> pool_wf s -> pool_wf s'.
Proof.
  unfold Pool.take. destruct (Pool.pop (Pool.available s)) as [[c rest] |] eqn:E;
    [| done].
  intros [= <-] Hwf. unfold pool_wf. simpl. by eapply pool_ok_take.
Qed.

Lemma wf_removeConnection c s : pool_wf s -> pool_wf (Pool.removeConnection c s).
Proof.
  unfold pool_wf. simpl. apply pool_ok_shrink.
  - apply remove_first_sublist.
  - apply remove_first_sublist.
  - apply subseteq_difference_l. reflexivity.
  - reflexivity.
Qed.

Lemma returned_ok_pending s c ok :
  Pool.returned_ok s c = Some ok ->
  exists x, Pool.pending s !! c = Some (x, Pool.Returned ok).
Proof.
  unfold Pool.returned_ok.
  destruct (Pool.pending s !! c) as [[x [| ok']] |]; [done | | done].
  intros [= ->]. by exists x.
Qed.

(** The loop of [initializePool] over the warm-up connections still to
    be pushed. *)
Lemma wf_initializePool_push (todo : list Pool.conn) : forall s,
  pool_ok (Pool.pool s) (Pool.available s) (Pool.inUse s) (Pool.pinging s)
          (Pool.fresh s) (Pool.pending s) (Some todo) (Pool.creating s) ->
  (forall c, c ∈ todo -> is_Some (Pool.returned_ok s c)) ->
  let s' := foldl Pool.initializePool_push s todo in
  pool_ok (Pool.pool s') (Pool.available s') (Pool.inUse s') (Pool.pinging s')
          (Pool.fresh s') (Pool.pending s') None (Pool.creating s').
Proof.
  induction todo as [| c rest IH]; intros s Hok Hret; simpl.
  { eapply pool_ok_slots; [| exact Hok]. done. }
  destruct (Hret c) as [ok Hc]; [by left |].
  destruct (returned_ok_pending s c ok Hc) as [x Hx].
  destruct Hok as (H1 & H2 & H3 & H4 & H5 & H6 & H7 & H8).
  destruct (H7 (c :: rest) eq_refl) as [Hnd Hslots].
  apply NoDup_cons in Hnd as [Hnotin Hnd].
  assert (Hok' : pool_ok (Pool.pool s) (Pool.available s) (Pool.inUse s)
                   (Pool.pinging s) (Pool.fresh s) (Pool.pending s)
                   (Some rest) (Pool.creating s)).
  { unfold pool_ok. split_and!; try done.
    intros slots [= <-]. split; [done |]. intros y Hy. apply Hslots. by right. }
  assert (Hgoal : forall s1,
            Pool.pending s1 = delete c (Pool.pending s) ->
            pool_ok (Pool.pool s1) (Pool.available s1) (Pool.inUse s1)
              (Pool.pinging s1) (Pool.fresh s1) (Pool.pending s1)
              (Some rest) (Pool.creating s1) ->
            let s' := foldl Pool.initializePool_push s1 rest in
            pool_ok (Pool.pool s') (Pool.available s') (Pool.inUse s')
              (Pool.pinging s') (Pool.fresh s') (Pool.pending s') None
              (Pool.creating s')).
  { intros s1 Hpd Hok1. apply IH; [done |].
    intros y Hy. unfold Pool.returned_ok. rewrite Hpd.
    rewrite lookup_delete_ne by (intros <-; done).
    apply Hret. by right. }
  assert (Hpush : Pool.initializePool_push s c
                  = if ok
                    then Pool.forget c
                           (Pool.set_fields s (Pool.pool s ++ [c])
                              (Pool.available s ++ [c]) (Pool.inUse s))
                    else Pool.forget c s).
  { unfold Pool.initializePool_push. rewrite Hc. by destruct ok. }
  rewrite Hpush. clear Hpush.
  destruct ok.
  - apply Hgoal; [done |]. simpl.
    eapply (pool_ok_adopt _ _ _ _ _ _ _ _ c x true); try done.
    + intros slots [= <-]. done.
    + by right.
    + right. done.
  - apply Hgoal; [done |]. simpl.
    eapply (pool_ok_adopt _ _ _ _ _ _ _ _ c x false); try done.
    + intros slots [= <-]. done.
    + by left.
    + left. split; [done | by left].
Qed.

Lemma wf_initializePool_resume slots s :
  Pool.init_slots s = Some slots ->
  forallb (fun c => bool_decide (is_Some (Pool.returned_ok s c))) slots = true ->
  pool_wf s -> pool_wf (Pool.initializePool_resume slots s).
Proof.
  intros Hsl Hall Hwf. unfold Pool.initializePool_resume, pool_wf. simpl.
  apply wf_initializePool_push.
  - unfold pool_wf in Hwf. by rewrite Hsl in Hwf.
  - intros c Hc. rewrite forallb_forall in Hall.
    specialize (Hall c (proj1 (list_elem_of_In _ _) Hc)).
    by apply bool_decide_eq_true in Hall.
Qed.

(** Every event keeps the bookkeeping. *)
Lemma wf_step e s s' : Pool.step e s = Some s' -> pool_wf s -> pool_wf s'.
Proof.
  destruct e as [c ok | | who | c | who | who | c | c ok | c |]; simpl.
  - (* Ping *)
    destruct (Pool.pending s !! c) as [[a [| ok']] |] eqn:E; try done.
    intros [= <-] Hwf. unfold pool_wf. simpl. by apply pool_ok_finish.
  - (* InitJoin *)
    destruct (Pool.init_slots s) as [slots |] eqn:Hsl; [| done].
    destruct (forallb _ slots) eqn:Hall; [| done].
    intros [= <-]. by apply wf_initializePool_resume.
  - (* Acquire *)
    case_decide; [done |]. intros [= <-] Hwf. unfold Pool.acquire.
    destruct (Nat.ltb 0 (length (Pool.available s))).
    + destruct (Pool.take who s) as [s1 |] eqn:Ht; simpl; [| done].
      by eapply wf_take.
    + destruct (Nat.ltb _ _); [by apply wf_start | done].
  - (* Resume *)
    destruct (Pool.pending s !! c) as [[[| who |] [| ok]] |] eqn:E; try done.
    + intros [= <-] Hwf. unfold Pool.acquire_resume.
      assert (Hsl : forall slots, Pool.init_slots s = Some slots -> c ∉ slots).
      { intros slots Hs Hin. destruct Hwf as (_ & _ & _ & _ & _ & _ & H7 & _).
        destruct (H7 slots Hs) as [_ Hslots].
        destruct (Hslots c Hin) as [pr Hpr]. congruence. }
      destruct ok; unfold pool_wf; simpl.
      * eapply (pool_ok_adopt _ _ _ _ _ _ _ _ c (Pool.ByAcquire who) true);
          try done; [by right | left; split; [done | by right]].
      * eapply (pool_ok_adopt _ _ _ _ _ _ _ _ c (Pool.ByAcquire who) false);
          try done; [by left | left; split; [done | by left]].
    + intros [= <-] Hwf. unfold Pool.replenish_resume.
      assert (Hsl : forall slots, Pool.init_slots s = Some slots -> c ∉ slots).
      { intros slots Hs Hin. destruct Hwf as (_ & _ & _ & _ & _ & _ & H7 & _).
        destruct (H7 slots Hs) as [_ Hslots].
        destruct (Hslots c Hin) as [pr Hpr]. congruence. }
      destruct ok; unfold pool_wf; simpl.
      * eapply (pool_ok_adopt _ _ _ _ _ _ _ _ c Pool.ByReplenish true);
          try done; [by right | by right].
      * eapply (pool_ok_adopt _ _ _ _ _ _ _ _ c Pool.ByReplenish false);
          try done; [by left | left; split; [done | by left]].
  - (* Poll *)
    case_decide; [| done]. intros [= <-] Hwf. unfold Pool.poll.
    destruct (Nat.ltb 0 (length (Pool.available s))); [| done].
    destruct (Pool.take who s) as [s1 |] eqn:Ht; simpl; [| done].
    by eapply wf_take.
  - (* Timeout *)
    case_decide; [| done]. by intros [= <-] Hwf.
  - (* Release *)
    intros [= <-] Hwf. unfold Pool.release. case_decide; [| done].
    unfold pool_wf. simpl. by apply pool_ok_release.
  - (* ReleasePing *)
    case_decide as Hin; [| done]. intros [= <-] Hwf. unfold Pool.release_ping.
    destruct ok.
    + unfold pool_wf. simpl. by apply pool_ok_idle.
    + set (s1 := Pool.removeConnection c _).
      assert (Hwf1 : pool_wf s1).
      { unfold s1, pool_wf. simpl. eapply pool_ok_shrink; [.. | exact Hwf].
        - apply remove_first_sublist.
        - apply remove_first_sublist.
        - apply subseteq_difference_l. reflexivity.
        - apply subseteq_difference_l. reflexivity. }
      destruct (Nat.ltb _ _); [by apply wf_start | done].
  - (* Lost *)
    case_decide; [| done]. intros [= <-]. apply wf_removeConnection.
  - (* Shutdown *)
    intros [= <-] Hwf. unfold Pool.shutdown, pool_wf. simpl.
    eapply pool_ok_shrink; [.. | exact Hwf].
    + apply sublist_nil_l.
    + apply sublist_nil_l.
    + apply empty_subseteq.
    + reflexivity.
Qed.

Lemma wf_run es : forall s s',
  Pool.run es s = Some s' -> pool_wf s -> pool_wf s'.
Proof.
  induction es as [| e es IH]; intros s s'; simpl; [by intros [= <-] |].
  destruct (Pool.step e s) as [s1 |] eqn:E; [| done].
  intros Hrun Hwf. eapply IH; [exact Hrun |]. by eapply wf_step.
Qed.

Lemma remove_first_other (c y : Pool.conn) (l : list Pool.conn) :
  y <> c -> (y ∈ Pool.remove_first c l <-> y ∈ l).
Proof.
  intros Hne. induction l as [| z l IH]; simpl; [done |].
  destruct (Nat.eqb_spec c z) as [-> | Hcz].
  - rewrite elem_of_cons. split; [by right | intros [-> | ?]; done].
  - rewrite !elem_of_cons, IH. done.
Qed.

(** X1: in every state the pool reaches from its constructor, no connection
    is listed twice in [pool] or in [available], and an idle connection is
    never at the same time checked out. *)
Theorem pool_collections_stay_consistent cfg es s :
  Pool.run es (Pool.construct cfg) = Some s ->
  NoDup (Pool.pool s)
  /\ NoDup (Pool.available s)
  /\ (forall c, c ∈ Pool.available s -> c ∉ Pool.inUse s).
Proof.
  intros Hrun.
  destruct (wf_run es _ _ Hrun (wf_construct cfg)) as (H1 & H2 & H3 & _).
  split_and!; try done. intros c Hc. by destruct (H3 c Hc).
Qed.

(** X2: in every reachable state the counter [creating] is the number of
    [createConnection] calls that have not returned yet. *)
Theorem creating_counts_calls_in_flight cfg es s :
  Pool.run es (Pool.construct cfg) = Some s ->
  Pool.stat_creating (Pool.getStats s) = connecting s.
Proof.
  intros Hrun.
  by destruct (wf_run es _ _ Hrun (wf_construct cfg))
    as (_ & _ & _ & _ & _ & _ & _ & H8).
Qed.

Lemma take_outcome who s s' :
  Pool.take who s = Some s' ->
  exists c rest,
    Pool.pop (Pool.available s) = Some (c, rest)
    /\ Pool.outcome s' = <[who := Pool.Resolved c]> (Pool.outcome s)
    /\ Pool.inUse s' = Pool.inUse s ∪ {[c]}
    /\ Pool.available s' = rest.
Proof.
  unfold Pool.take. destruct (Pool.pop (Pool.available s)) as [[c rest] |]; [| done].
  intros [= <-]. by exists c, rest.
Qed.

(** X3: whenever an event makes [acquire] resolve for a caller, the
    connection it hands out was not checked out before the event, is
    checked out after it, and is not idle. *)
Theorem acquire_hands_out_exclusively cfg es s e s' who c :
  Pool.run es (Pool.construct cfg) = Some s ->
  Pool.step e s = Some s' ->
  Pool.outcome s !! who = None ->
  Pool.outcome s' !! who = Some (Pool.Resolved c) ->
  (c ∉ Pool.inUse s) /\ c ∈ Pool.inUse s' /\ (c ∉ Pool.available s').
Proof.
  intros Hrun Hstep Hbefore Hafter.
  pose proof (wf_run es _ _ Hrun (wf_construct cfg)) as Hwf.
  pose proof (wf_step e s s' Hstep Hwf) as Hwf'.
  assert (Hin : (c ∉ Pool.inUse s) /\ c ∈ Pool.inUse s').
  { assert (Htake : forall who',
              Pool.take who' s = Some s' ->
              (c ∉ Pool.inUse s) /\ c ∈ Pool.inUse s').
    { intros who' Ht.
      destruct (take_outcome who' s s' Ht) as (c' & rest & Hpop & Hout & Hu & _).
      rewrite Hout in Hafter.
      destruct (decide (who' = who)) as [-> | Hne];
        [| rewrite lookup_insert_ne in Hafter by done; congruence].
      rewrite lookup_insert_eq in Hafter. injection Hafter as ->.
      apply pop_snoc in Hpop.
      destruct Hwf as (_ & _ & H3 & _).
      destruct (H3 c) as [Hnu _].
      { rewrite Hpop. apply elem_of_app. right. by apply list_elem_of_singleton. }
      split; [done |]. rewrite Hu. apply elem_of_union. right.
      by apply elem_of_singleton. }
    destruct e as [c0 ok | | who0 | c0 | who0 | who0 | c0 | c0 ok | c0 |];
      simpl in Hstep.
    - destruct (Pool.pending s !! c0) as [[a [| ok']] |]; try done.
      injection Hstep as <-. simpl in Hafter. congruence.
    - destruct (Pool.init_slots s) as [slots |]; [| done].
      destruct (forallb _ slots); [| done]. injection Hstep as <-.
      exfalso. revert Hafter. unfold Pool.initializePool_resume. simpl.
      assert (Hkeep : forall todo s0,
                Pool.outcome (foldl Pool.initializePool_push s0 todo)
                = Pool.outcome s0).
      { induction todo as [| y todo IH]; intros s0; simpl; [done |].
        rewrite IH. unfold Pool.initializePool_push.
        by destruct (Pool.returned_ok s0 y) as [[|] |]. }
      rewrite Hkeep. congruence.
    - case_decide; [done |]. injection Hstep as <-. unfold Pool.acquire in *.
      destruct (Nat.ltb 0 (length (Pool.available s))).
      + destruct (Pool.take who0 s) as [s1 |] eqn:Ht; simpl in *;
          [by apply (Htake who0) | congruence].
      + destruct (Nat.ltb _ _); simpl in Hafter; congruence.
    - destruct (Pool.pending s !! c0) as [[[| who1 |] [| ok]] |] eqn:E;
        try done; injection Hstep as <-.
      + unfold Pool.acquire_resume in *. destruct ok; simpl in *; [| congruence].
        destruct (decide (who1 = who)) as [-> | Hne];
          [| rewrite lookup_insert_ne in Hafter by done; congruence].
        rewrite lookup_insert_eq in Hafter. injection Hafter as ->.
        destruct Hwf as (_ & _ & _ & _ & H5 & _). split.
        * intros Hu. destruct (H5 c) as [_ Hn]; [tauto | congruence].
        * apply elem_of_union. right. by apply elem_of_singleton.
      + unfold Pool.replenish_resume in *. destruct ok; simpl in *; congruence.
    - case_decide; [| done]. injection Hstep as <-. unfold Pool.poll in *.
      destruct (Nat.ltb 0 (length (Pool.available s))); [| congruence].
      destruct (Pool.take who0 s) as [s1 |] eqn:Ht; simpl in *;
        [by apply (Htake who0) | congruence].
    - case_decide; [| done]. injection Hstep as <-. simpl in Hafter.
      destruct (decide (who0 = who)) as [-> | Hne];
        [rewrite lookup_insert_eq in Hafter
        | rewrite lookup_insert_ne in Hafter by done]; congruence.
    - injection Hstep as <-. unfold Pool.release in *.
      case_decide; simpl in *; congruence.
    - case_decide; [| done]. injection Hstep as <-. unfold Pool.release_ping in *.
      destruct ok; simpl in *; [congruence |].
      destruct (Nat.ltb _ _); simpl in *; congruence.
    - case_decide; [| done]. injection Hstep as <-. simpl in *. congruence.
    - injection Hstep as <-. simpl in *. congruence. }
  destruct Hin as [Hb Ha]. split_and!; try done.
  intros Hav. destruct Hwf' as (_ & _ & H3 & _). by destruct (H3 c Hav).
Qed.

(** X4: in every reachable state [removeConnection] takes the connection
    out of all three collections and leaves every other connection where it
    was. *)
Theorem removeConnection_removes_everywhere cfg es s c :
  Pool.run es (Pool.construct cfg) = Some s ->
  let s' := Pool.removeConnection c s in
  (c ∉ Pool.pool s') /\ (c ∉ Pool.available s') /\ (c ∉ Pool.inUse s')
  /\ (forall y, y <> c ->
        (y ∈ Pool.pool s' <-> y ∈ Pool.pool s)
        /\ (y ∈ Pool.available s' <-> y ∈ Pool.available s)
        /\ (y ∈ Pool.inUse s' <-> y ∈ Pool.inUse s)).
Proof.
  intros Hrun.
  destruct (wf_run es _ _ Hrun (wf_construct cfg)) as (H1 & H2 & _).
  simpl. split_and!.
  - by apply remove_first_gone.
  - by apply remove_first_gone.
  - intros [_ Hne]%elem_of_difference. apply Hne. by apply elem_of_singleton.
  - intros y Hy. split_and!; try by apply remove_first_other.
    rewrite elem_of_difference, elem_of_singleton. tauto.
Qed.

(** X5: a connection released by its holder and found healthy goes to a
    waiting caller at that caller's next poll. *)
Theorem released_connection_reaches_waiter (s : Pool.State) who c :
  who ∈ Pool.waiting s ->
  Pool.available s = [] ->
  c ∈ Pool.inUse s ->
  exists s',
    Pool.run [Pool.Release c; Pool.ReleasePing c true; Pool.Poll who] s = Some s'
    /\ Pool.outcome s' !! who = Some (Pool.Resolved c)
    /\ c ∈ Pool.inUse s'
    /\ Pool.available s' = []
    /\ (who ∉ Pool.waiting s').
Proof.
  intros Hw Hav Hc. cbn [Pool.run Pool.step]. unfold Pool.release.
  destruct (decide (c ∈ Pool.inUse s)) as [_ | ?]; [| done]. cbn [Pool.pinging].
  destruct (decide (c ∈ Pool.pinging s ∪ {[c]})) as [_ | Hp];
    [| exfalso; apply Hp, elem_of_union; right; by apply elem_of_singleton].
  unfold Pool.release_ping. cbn -[union difference].
  destruct (decide (who ∈ Pool.waiting s)) as [_ | ?]; [| done].
  unfold Pool.poll, Pool.take. cbn -[union difference]. rewrite Hav.
  cbn -[union difference].
  eexists. split; [reflexivity |]. cbn -[union difference]. split_and!.
  - apply lookup_insert_eq.
  - apply elem_of_union. right. by apply elem_of_singleton.
  - done.
  - intros [_ Hne]%elem_of_difference. apply Hne. by apply elem_of_singleton.
Qed.

End PoolInvariants.

Lemma pool_collections_stay_consistent_witness :
  exists s,
    Pool.run slow_warmup (Pool.construct two_two) = Some s
    /\ NoDup (Pool.pool s) /\ NoDup (Pool.available s).
Proof.
  destruct (Pool.run slow_warmup (Pool.construct two_two)) as [s |] eqn:E;
    [| vm_compute in E; discriminate E].
  exists s. split; [reflexivity |].
  destruct (pool_collections_stay_consistent two_two slow_warmup s E)
    as (H1 & H2 & _). by split.
Defined.

Lemma creating_counts_calls_in_flight_witness :
  exists s,
    Pool.run [Pool.Ping 0 true; Pool.Acquire 7] (Pool.construct two_two) = Some s
    /\ Pool.stat_creating (Pool.getStats s) = connecting s.
Proof.
  destruct (Pool.run [Pool.Ping 0 true; Pool.Acquire 7] (Pool.construct two_two))
    as [s |] eqn:E; [| vm_compute in E; discriminate E].
  exists s. split; [reflexivity |].
  exact (creating_counts_calls_in_flight two_two _ s E).
Defined.

Lemma acquire_hands_out_exclusively_witness :
  exists s s',
    Pool.run warm_up (Pool.construct two_two) = Some s
    /\ Pool.step (Pool.Acquire 7) s = Some s'
    /\ 1%nat ∈ Pool.inUse s' /\ (1%nat ∉ Pool.available s').
Proof.
  eexists _, _. split; [vm_compute; reflexivity |].
  split; [vm_compute; reflexivity |].
  eapply (acquire_hands_out_exclusively two_two warm_up _ (Pool.Acquire 7) _ 7 1);
    vm_compute; reflexivity.
Defined.

Lemma removeConnection_removes_everywhere_witness :
  exists s,
    Pool.run warm_up (Pool.construct two_two) = Some s
    /\ (0%nat ∉ Pool.pool (Pool.removeConnection 0 s))
    /\ (0%nat ∉ Pool.available (Pool.removeConnection 0 s)).
Proof.
  destruct (Pool.run warm_up (Pool.construct two_two)) as [s |] eqn:E;
    [| vm_compute in E; discriminate E].
  exists s. split; [reflexivity |].
  destruct (removeConnection_removes_everywhere two_two warm_up s 0 E)
    as (H1 & H2 & _). by split.
Defined.

Lemma released_connection_reaches_waiter_witness :
  exists s',
    Pool.run [Pool.Release 0; Pool.ReleasePing 0 true; Pool.Poll 3] busy_pool
    = Some s'
    /\ Pool.outcome s' !! 3%nat = Some (Pool.Resolved 0%nat).
Proof.
  destruct (released_connection_reaches_waiter busy_pool 3 0)
    as (s' & Hrun & Hout & _).
  - apply (bool_decide_unpack _). vm_compute. exact I.
  - vm_compute. reflexivity.
  - apply (bool_decide_unpack _). vm_compute. exact I.
  - exists s'. by split.
Defined.

(** ** More on authentication and minting *)
Section Identity.
Context `{!Externals}.

Lemma truthy_Some (v : option string) :
  truthy v = true -> exists s, v = Some s /\ s <> "".
Proof.
  destruct v as [s |]; [| done]. simpl. intros Hs. exists s. split; [done |].
  intros ->. done.
Qed.

(** X6: the middleware lets a request through only with a non-empty token
    that [jwt.verify] accepts under the configured secret, and the user it
    attaches carries the non-empty [userId] claim of that token and its
    other claims unchanged. *)
Theorem identity_is_verified env r u :
  Auth.authenticate env r = Ok u ->
  exists token secret,
    Auth.extractToken r = Some token /\ token <> ""
    /\ JWT_SECRET env = Some secret /\ secret <> ""
    /\ jwt_verify token secret = Ok (Auth.user_claims u)
    /\ claim_userId (Auth.user_claims u) = Some (Auth.userId u)
    /\ Auth.userId u <> "".
Proof.
  unfold Auth.authenticate.
  destruct (truthy (Auth.extractToken r)) eqn:Ht; [| done].
  destruct (truthy (JWT_SECRET env)) eqn:Hs; [| done].
  destruct (truthy_Some _ Ht) as (token & Htok & Hne).
  destruct (truthy_Some _ Hs) as (secret & Hsec & Hsne).
  rewrite Htok, Hsec. simpl default.
  destruct (jwt_verify token secret) as [decoded | e] eqn:Hv; [| done].
  destruct (truthy (claim_userId decoded)) eqn:Hu; [| done].
  destruct (truthy_Some _ Hu) as (uid & Huid & Hune).
  simpl. intros [= <-]. simpl. exists token, secret.
  rewrite Huid. by split_and!.
Qed.

(** X7: no exception makes the middleware answer with code [TOKEN_EXPIRED]:
    an expired token, a [TokenExpiredError], is an instance of
    [JsonWebTokenError] and is answered 401 [INVALID_TOKEN] by the test that
    comes first. *)
Theorem expired_token_reported_invalid now e message :
  field "code" (res_body (Auth.errorResponse now e)) <> Some "TOKEN_EXPIRED"
  /\ field "code" (res_body (Auth.errorResponse now (TokenExpiredError message)))
     = Some "INVALID_TOKEN"
  /\ res_status (Auth.errorResponse now (TokenExpiredError message)) = 401.
Proof. split_and!; [destruct e; discriminate | reflexivity | reflexivity]. Qed.

(** X8: [generateTinybirdToken] throws nothing but [TinybirdError], so the
    handler answers a failed mint with that error's message and status and
    never with its internal-error response. *)
Theorem mint_failure_is_TinybirdError env o now userId w :
  match (Tinybird.generateTinybirdToken env o now userId w).1 with
  | Ok _ => True
  | Throw e =>
      exists message statusCode,
        e = TinybirdError message statusCode
        /\ Proxy.mintCatch e = json [("error", message)] (status_or_500 statusCode)
  end.
Proof.
  assert (Hre : forall e, exists m sc, Tinybird.rethrown e = TinybirdError m sc).
  { intros e. destruct e; simpl; eauto. }
  unfold Tinybird.generateTinybirdToken, bind, count_mint, try_catch, throw.
  match goal with
  | |- context [let (_, _) := ?m ?w0 in _] => destruct (m w0) as [[token | e] w1]
  end; simpl; [done |].
  destruct (Hre e) as (m & sc & ->). by exists m, sc.
Qed.

(** X9: a token that [generateTinybirdToken] returns is the signature of a
    payload named after the user, limited to one request per second, with
    one [PIPES:READ] scope for each of the two pipes, every scope filtered
    by the full non-empty resource set the fetcher returned. *)
Theorem minted_scopes_carry_resource_set env o now userId w token :
  (Tinybird.generateTinybirdToken env o now userId w).1 = Ok token ->
  exists workspace key trucks payload,
    TINYBIRD_WORKSPACE_ID env = Some workspace
    /\ TINYBIRD_SIGNING_KEY env = Some key
    /\ (TruckFetcher.getTruckRegistrationNos env o now userId (counted w)).1
       = Ok trucks
    /\ trucks <> []
    /\ jwt_sign payload key = Ok token
    /\ workspace_id payload = workspace
    /\ name payload = "user_" +:+ userId +:+ "_jwt"
    /\ exp payload = now / 1000 + 3600
    /\ limits_rps payload = 1
    /\ map scope_resource (scopes payload)
       = ["truck_history_endpoint"; "truck_location_endpoint"]
    /\ Forall (fun sc => scope_type sc = "PIPES:READ"
                         /\ fixed_registrationNo sc = trucks) (scopes payload).
Proof.
  intros Hok.
  destruct (truthy (TINYBIRD_WORKSPACE_ID env)) eqn:Hws.
  2: { revert Hok. unfold Tinybird.generateTinybirdToken. rewrite Hws.
       unfold bind, count_mint, try_catch, throw. by simpl. }
  destruct (truthy (TINYBIRD_SIGNING_KEY env)) eqn:Hkey.
  2: { revert Hok. unfold Tinybird.generateTinybirdToken. rewrite Hws, Hkey.
       unfold bind, count_mint, try_catch, throw. by simpl. }
  rewrite generateTinybirdToken_configured in Hok by done.
  destruct (truthy_Some _ Hws) as (workspace & Hw & _).
  destruct (truthy_Some _ Hkey) as (key & Hk & _).
  rewrite Hw, Hk in Hok. simpl default in Hok.
  destruct (TruckFetcher.getTruckRegistrationNos env o now userId (counted w))
    as [[trucks | e] w1]; [| done].
  destruct trucks as [| x l]; [done |]. simpl in Hok.
  destruct (jwt_sign _ key) as [tk | e] eqn:Hsign; [| done].
  simpl in Hok. injection Hok as ->.
  exists workspace, key, (x :: l), (Tinybird.make_payload workspace userId now (x :: l)).
  split_and!; try done. repeat constructor.
Qed.

End Identity.

Lemma identity_is_verified_witness :
  exists token secret,
    Auth.extractToken demo_request = Some token
    /\ jwt_verify (Externals := demo_externals) token secret
       = Ok {| claim_userId := Some "u1"; claim_others := ∅ |}.
Proof.
  destruct (@identity_is_verified demo_externals demo_env demo_request
              {| Auth.userId := "u1";
                 Auth.user_claims :=
                   {| claim_userId := Some "u1"; claim_others := ∅ |} |})
    as (token & secret & H1 & _ & _ & _ & H5 & _).
  - vm_compute. reflexivity.
  - by exists token, secret.
Defined.

Lemma minted_scopes_carry_resource_set_witness :
  exists payload,
    jwt_sign (Externals := demo_externals) payload "key" = Ok "user_u1_jwt.3600"
    /\ Forall (fun sc => scope_type sc = "PIPES:READ"
                         /\ fixed_registrationNo sc = ["REG1"]) (scopes payload).
Proof.
  destruct (@minted_scopes_carry_resource_set demo_externals demo_env
              (demo_oracle ["REG1"]) 999 "u1" empty_world "user_u1_jwt.3600")
    as (workspace & key & trucks & payload & _ & Hk & Htr & _ & Hs & _ & _ & _
        & _ & _ & Hall).
  - vm_compute. reflexivity.
  - exists payload.
    assert (key = "key") as -> by (vm_compute in Hk; congruence).
    assert (trucks = ["REG1"]) as -> by (vm_compute in Htr; congruence).
    by split.
Defined.

(** ** More on the proxy handler *)
Section HandlerMore.
Context `{!Externals}.

Lemma json_sets_no_cookie fields status : sets_no_cookie (json fields status).
Proof. intros k _. apply lookup_empty. Qed.

Lemma forwardResponse_sets_no_cookie response :
  sets_no_cookie (Proxy.forwardResponse response).
Proof.
  intros k Hk. unfold Proxy.forwardResponse. simpl.
  apply map_lookup_filter_None. right. intros v _.
  unfold Proxy.keepResponseHeader. simpl. by rewrite Hk.
Qed.

Lemma proxyCatch_sets_no_cookie e : sets_no_cookie (Proxy.proxyCatch e).
Proof. destruct e; apply json_sets_no_cookie. Qed.

Lemma mintCatch_sets_no_cookie e : sets_no_cookie (Proxy.mintCatch e).
Proof. destruct e; apply json_sets_no_cookie. Qed.

Lemma forward_sets_no_cookie env o r token w res :
  (Proxy.forward env o r token w).1 = Ok res -> sets_no_cookie res.
Proof.
  unfold Proxy.forward. destruct (negb (truthy (TINYBIRD_API_URL env))).
  { intros [= <-]. apply json_sets_no_cookie. }
  destruct (readBody_total o r w) as (body & w' & Hb & _).
  unfold bind, lift, ret. rewrite Hb.
  destruct (axios o _) as [response | e]; [| done].
  intros [= <-]. apply forwardResponse_sets_no_cookie.
Qed.

Lemma step_finished_clean env o userId r now p w :
  finished_clean p -> finished_clean (Proxy.step env o userId r now p w).1.
Proof.
  intros Hp. destruct p as [| | token | token | res]; simpl.
  - destruct (Proxy.lookupToken o now userId w) as [[tok | e] w1]; simpl.
    + by destruct (truthy tok).
    + apply proxyCatch_sets_no_cookie.
  - destruct (Tinybird.generateTinybirdToken env o now userId w)
      as [[tok | e] w1]; simpl; [done | apply mintCatch_sets_no_cookie].
  - destruct (Proxy.storeToken o now userId token w) as [[[] | e] w1]; simpl;
      [done | apply proxyCatch_sets_no_cookie].
  - pose proof (forward_sets_no_cookie env o r token w) as Hf.
    destruct (Proxy.forward env o r token w) as [[res | e] w1]; simpl in *;
      [by apply Hf | apply proxyCatch_sets_no_cookie].
  - done.
Qed.

(** Four segments always finish a request. *)
Lemma handler_finishes env o userId r t_lookup t_mint t_store w :
  exists res,
    (Proxy.handler env o userId r t_lookup t_mint t_store w).1
    = Proxy.Finished res.
Proof.
  unfold Proxy.handler. cbn [Proxy.run].
  pose proof (step_lookup env o userId r t_lookup w) as H1.
  destruct (Proxy.step env o userId r t_lookup Proxy.AtLookup w) as [p1 w1].
  assert (Hp1 : p1 = Proxy.AtMint \/ exists tok, p1 = Proxy.AtForward tok).
  { destruct H1 as (_ & _ & _ & H1). destruct (pool_lookup_fault o); [left; tauto |].
    destruct (Redis.get _ _ _) as [tok |]; [| by left].
    destruct (truthy (Some tok)); [right; eauto | by left]. }
  assert (Hfwd : forall now tok w0, exists res,
            (Proxy.step env o userId r now (Proxy.AtForward tok) w0).1
            = Proxy.Finished res).
  { intros now tok w0. simpl.
    destruct (Proxy.forward env o r tok w0) as [[res | e] w']; simpl; eauto. }
  destruct Hp1 as [-> | [tok ->]].
  - rewrite step_mint.
    destruct (Tinybird.generateTinybirdToken env o t_mint userId w1)
      as [[token | e] w2]; [| simpl; eauto].
    pose proof (step_store env o userId r t_store token w2) as H3.
    destruct (Proxy.step env o userId r t_store (Proxy.AtStore token) w2)
      as [p3 w3]. destruct H3 as (-> & _).
    destruct (Hfwd t_store token w3) as [res Hres].
    destruct (Proxy.step env o userId r t_store (Proxy.AtForward token) w3)
      as [p4 w4]. simpl in *. eauto.
  - destruct (Hfwd t_mint tok w1) as [res Hres].
    destruct (Proxy.step env o userId r t_mint (Proxy.AtForward tok) w1)
      as [p2 w2]. simpl in *. subst p2. simpl. eauto.
Qed.

(** X10: the handler always answers, and whatever happens (cache hit or
    miss, failed mint, backend answer or error) the response it returns
    carries no [Set-Cookie] header in any casing. *)
Theorem responses_never_set_cookies env o userId r t_lookup t_mint t_store w :
  exists res,
    (Proxy.handler env o userId r t_lookup t_mint t_store w).1
    = Proxy.Finished res
    /\ forall k, toLowerCase k = "set-cookie" -> res_headers res !! k = None.
Proof.
  destruct (handler_finishes env o userId r t_lookup t_mint t_store w)
    as [res Hres].
  exists res. split; [done |].
  assert (Hclean : finished_clean
            (Proxy.handler env o userId r t_lookup t_mint t_store w).1).
  { unfold Proxy.handler. cbn [Proxy.run].
    pose proof (step_finished_clean env o userId r t_lookup Proxy.AtLookup w I) as H1.
    destruct (Proxy.step env o userId r t_lookup Proxy.AtLookup w) as [p1 w1].
    pose proof (step_finished_clean env o userId r t_mint p1 w1 H1) as H2.
    destruct (Proxy.step env o userId r t_mint p1 w1) as [p2 w2].
    pose proof (step_finished_clean env o userId r t_store p2 w2 H2) as H3.
    destruct (Proxy.step env o userId r t_store p2 w2) as [p3 w3].
    pose proof (step_finished_clean env o userId r t_store p3 w3 H3) as H4.
    by destruct (Proxy.step env o userId r t_store p3 w3) as [p4 w4]. }
  rewrite Hres in Hclean. exact Hclean.
Qed.

(** X11: on a cache hit the handler forwards with the cached token; it
    does not invoke [generateTinybirdToken] and leaves the key space as it
    was. *)
Theorem cache_hit_skips_mint env o userId r t_lookup t_mint t_store w token :
  pool_lookup_fault o = None ->
  Redis.get (cache w) t_lookup (Proxy.token_key userId) = Some token ->
  token <> "" ->
  (Proxy.handler env o userId r t_lookup t_mint t_store w).1
  = (Proxy.step env o userId r t_mint (Proxy.AtForward token) w).1
  /\ mints (Proxy.handler env o userId r t_lookup t_mint t_store w).2 = mints w
  /\ cache (Proxy.handler env o userId r t_lookup t_mint t_store w).2 = cache w.
Proof.
  intros Hok Hget Hne.
  assert (Ht : truthy (Some token) = true).
  { simpl. by destruct (String.eqb_spec token ""). }
  assert (H1 : Proxy.step env o userId r t_lookup Proxy.AtLookup w
               = (Proxy.AtForward token, w)).
  { unfold Proxy.step, Proxy.lookupToken, try_catch, redis_get.
    rewrite Hok, Hget. by rewrite Ht. }
  unfold Proxy.handler. cbn [Proxy.run]. rewrite H1.
  pose proof (step_forward env o userId r t_mint token w) as H2.
  assert (Hfin : exists res,
            (Proxy.step env o userId r t_mint (Proxy.AtForward token) w).1
            = Proxy.Finished res).
  { simpl. destruct (Proxy.forward env o r token w) as [[res | e] w']; simpl; eauto. }
  destruct (Proxy.step env o userId r t_mint (Proxy.AtForward token) w)
    as [p2 w2]. destruct H2 as (Hc & Hm & _). destruct Hfin as [res Hres].
  simpl in Hres. subst p2. simpl. by split_and!.
Qed.

(** The entry a successful miss leaves in the key space. *)
Lemma handler_stores_entry env o userId r t_lookup t_mint t_store w token :
  (Proxy.step env o userId r t_lookup Proxy.AtLookup w).1 = Proxy.AtMint ->
  (Tinybird.generateTinybirdToken env o t_mint userId w).1 = Ok token ->
  pool_store_fault o = None ->
  cache (Proxy.handler env o userId r t_lookup t_mint t_store w).2
    !! Proxy.token_key userId
  = Some (Redis.Entry token (t_store + 3600 * 1000))
  /\ mints (Proxy.handler env o userId r t_lookup t_mint t_store w).2
     = S (mints w)
  /\ exists res,
       (Proxy.handler env o userId r t_lookup t_mint t_store w).1
       = (Proxy.step env o userId r t_store (Proxy.AtForward token) res).1.
Proof.
  intros Hmiss Hmint Hstore.
  unfold Proxy.handler. cbn [Proxy.run].
  pose proof (step_lookup env o userId r t_lookup w) as H1.
  destruct (Proxy.step env o userId r t_lookup Proxy.AtLookup w) as [p1 w1].
  simpl in Hmiss. subst p1. destruct H1 as (Hc1 & Hm1 & _).
  rewrite step_mint.
  destruct (tame_generateTinybirdToken env o t_mint userId) as [_ Hsame].
  destruct (Hsame w1 w Hc1) as [Hres _]. rewrite Hmint in Hres.
  pose proof (generateTinybirdToken_counts env o t_mint userId w1) as Hcount.
  destruct (Tinybird.generateTinybirdToken env o t_mint userId w1) as [res w2].
  simpl in Hres, Hcount. subst res.
  pose proof (step_store env o userId r t_store token w2) as H3.
  destruct (Proxy.step env o userId r t_store (Proxy.AtStore token) w2)
    as [p3 w3]. destruct H3 as (-> & _ & Hm3 & Hst). rewrite Hstore in Hst.
  pose proof (step_forward env o userId r t_store token w3) as H4.
  destruct (Proxy.step env o userId r t_store (Proxy.AtForward token) w3)
    as [p4 w4] eqn:E4. destruct H4 as (Hc4 & Hm4 & _). cbn [fst snd].
  split_and!.
  - rewrite Hc4, Hst. unfold Redis.setex. by rewrite lookup_insert_eq.
  - congruence.
  - exists w3. by rewrite E4.
Qed.

(** X12: the credential a successful miss stores is what a later lookup of
    the same user finds, up to 3600 seconds after the store and not from
    then on: before, the request goes on to forwarding with that very
    token; after, it mints again. *)
Theorem stored_credential_round_trip env o userId r t_lookup t_mint t_store w
    token (t : Z) :
  (Proxy.step env o userId r t_lookup Proxy.AtLookup w).1 = Proxy.AtMint ->
  (Tinybird.generateTinybirdToken env o t_mint userId w).1 = Ok token ->
  token <> "" ->
  pool_store_fault o = None ->
  pool_lookup_fault o = None ->
  (Proxy.step env o userId r t Proxy.AtLookup
     (Proxy.handler env o userId r t_lookup t_mint t_store w).2).1
  = if Z.ltb t (t_store + 3600 * 1000) then Proxy.AtForward token
    else Proxy.AtMint.
Proof.
  intros Hmiss Hmint Hne Hstore Hlookup.
  destruct (handler_stores_entry env o userId r t_lookup t_mint t_store w token
              Hmiss Hmint Hstore) as (Hentry & _).
  set (w' := (Proxy.handler env o userId r t_lookup t_mint t_store w).2) in *.
  unfold Proxy.step, Proxy.lookupToken, try_catch, redis_get.
  assert (Ht : truthy (Some token) = true).
  { simpl. by destruct (String.eqb_spec token ""). }
  rewrite Hlookup. unfold Redis.get. rewrite Hentry. cbn [Redis.expires_at Redis.value].
  destruct (Z.ltb t (t_store + 3600 * 1000)); [| done].
  by rewrite Ht.
Qed.

(** X13: whatever the schedule, [n] concurrent requests of one user invoke
    [generateTinybirdToken] at most [n] times. *)
Theorem requests_mint_at_most_once_each env o userId r
    (schedule : list (nat * Z)) (n : nat) (w : World) :
  (mints (Proxy.concurrent_run env o userId r schedule
            (replicate n Proxy.AtLookup, w)).2
   <= mints w + n)%nat.
Proof.
  pose proof (any_schedule_bounded env o userId r schedule
                (replicate n Proxy.AtLookup, w)) as Hb.
  simpl in Hb.
  assert (Hn : sum_list_with may_mint (replicate n Proxy.AtLookup) = n).
  { clear. induction n as [| n IH]; simpl; [done | by rewrite IH]. }
  rewrite Hn in Hb. lia.
Qed.

(** X14: [TINYBIRD_API_URL] is only looked at after the credential is
    resolved: without it a request that misses the cache still mints and
    caches a credential, and is then answered 500 without any backend
    call. *)
Theorem backend_origin_checked_after_mint env o userId r t_lookup t_mint t_store
    w token :
  truthy (TINYBIRD_API_URL env) = false ->
  (Proxy.step env o userId r t_lookup Proxy.AtLookup w).1 = Proxy.AtMint ->
  (Tinybird.generateTinybirdToken env o t_mint userId w).1 = Ok token ->
  pool_store_fault o = None ->
  (Proxy.handler env o userId r t_lookup t_mint t_store w).1
  = Proxy.Finished (json [("error", "TINYBIRD_API_URL not configured")] 500)
  /\ mints (Proxy.handler env o userId r t_lookup t_mint t_store w).2
     = S (mints w)
  /\ cache (Proxy.handler env o userId r t_lookup t_mint t_store w).2
       !! Proxy.token_key userId
     = Some (Redis.Entry token (t_store + 3600 * 1000)).
Proof.
  intros Hurl Hmiss Hmint Hstore.
  destruct (handler_stores_entry env o userId r t_lookup t_mint t_store w token
              Hmiss Hmint Hstore) as (Hentry & Hcount & w3 & Hres).
  split_and!; try done. rewrite Hres. simpl. unfold Proxy.forward.
  by rewrite Hurl.
Qed.

(** X15: a request body that declares JSON and does not parse is not
    fatal: the request is forwarded without a body (same method, URL and
    headers) and a warning is logged. *)
Theorem unparsable_body_is_dropped env o r token w contentType e :
  truthy (TINYBIRD_API_URL env) = true ->
  req_method r <> "GET" -> req_method r <> "HEAD" ->
  req_header r "content-type" = Some contentType ->
  includes "application/json" contentType = true ->
  body_json o (req_body r) = Throw e ->
  exists q,
    ax_data q = None
    /\ ax_method q = toLowerCase (req_method r)
    /\ ax_headers q = Proxy.buildHeaders token (req_headers r)
    /\ (Proxy.forward env o r token w).1
       = match axios o q with
         | Ok response => Ok (Proxy.forwardResponse response)
         | Throw err => Throw err
         end
    /\ "Failed to parse request body:" ∈ warnings (Proxy.forward env o r token w).2.
Proof.
  intros Hurl Hget Hhead Hct Hjson Hbody.
  unfold Proxy.forward. rewrite Hurl. cbn [negb].
  assert (Hb : Proxy.readBody o r w
               = (Ok None, {| cache := cache w;
                              warnings := warnings w ++ ["Failed to parse request body:"];
                              mints := mints w |})).
  { unfold Proxy.readBody.
    apply String.eqb_neq in Hget. apply String.eqb_neq in Hhead.
    rewrite Hget, Hhead. simpl andb. cbv iota.
    rewrite Hct, Hjson.
    unfold try_catch, bind, lift, ret, console_warn. by rewrite Hbody. }
  unfold bind, lift, ret. rewrite Hb.
  match goal with
  | |- context [axios o {| ax_method := ?m; ax_url := ?u;
                           ax_headers := ?h; ax_data := ?d |}] =>
      exists {| ax_method := m; ax_url := u; ax_headers := h; ax_data := d |}
  end.
  split_and!; try reflexivity.
  - by destruct (axios o _).
  - destruct (axios o _); simpl; apply elem_of_app; right;
      by apply list_elem_of_singleton.
Qed.

End HandlerMore.

Lemma responses_never_set_cookies_witness :
  exists res,
    (Proxy.handler (H := demo_externals) demo_env (demo_oracle ["REG1"]) "u1"
       demo_request 0 5 9 empty_world).1 = Proxy.Finished res
    /\ res_headers res !! "Set-Cookie" = None.
Proof.
  destruct (@responses_never_set_cookies demo_externals demo_env
              (demo_oracle ["REG1"]) "u1" demo_request 0 5 9 empty_world)
    as (res & Hres & Hno).
  exists res. split; [exact Hres |]. apply Hno. reflexivity.
Defined.

Lemma cache_hit_skips_mint_witness :
  mints (Proxy.handler (H := demo_externals) demo_env (demo_oracle ["REG1"])
           "u1" demo_request 2000 2005 2009 cached_world).2
  = mints cached_world.
Proof.
  apply (@cache_hit_skips_mint demo_externals demo_env (demo_oracle ["REG1"])
           "u1" demo_request 2000 2005 2009 cached_world "user_u1_jwt.3600").
  - reflexivity.
  - vm_compute. reflexivity.
  - discriminate.
Defined.

Lemma stored_credential_round_trip_witness :
  (Proxy.step (H := demo_externals) demo_env (demo_oracle ["REG1"]) "u1"
     demo_request 5000 Proxy.AtLookup cached_world).1
  = Proxy.AtForward "user_u1_jwt.3600".
Proof.
  apply (@stored_credential_round_trip demo_externals demo_env
           (demo_oracle ["REG1"]) "u1" demo_request 0 999 999 empty_world
           "user_u1_jwt.3600" 5000).
  - vm_compute. reflexivity.
  - vm_compute. reflexivity.
  - discriminate.
  - reflexivity.
  - reflexivity.
Defined.

Lemma backend_origin_checked_after_mint_witness :
  (Proxy.handler (H := demo_externals) no_origin_env (demo_oracle ["REG1"])
     "u1" demo_request 0 5 9 empty_world).1
  = Proxy.Finished (json [("error", "TINYBIRD_API_URL not configured")] 500).
Proof.
  apply (@backend_origin_checked_after_mint demo_externals no_origin_env
           (demo_oracle ["REG1"]) "u1" demo_request 0 5 9 empty_world
           "user_u1_jwt.3600"); vm_compute; reflexivity.
Defined.

Lemma unparsable_body_is_dropped_witness :
  exists q,
    ax_data q = None
    /\ (Proxy.forward (H := demo_externals) demo_env bad_body_oracle
          post_request "tok" empty_world).1
       = match axios bad_body_oracle q with
         | Ok response => Ok (Proxy.forwardResponse response)
         | Throw err => Throw err
         end.
Proof.
  destruct (@unparsable_body_is_dropped demo_externals demo_env bad_body_oracle
              post_request "tok" empty_world "application/json; charset=utf-8"
              (Error "Unexpected end of JSON input"))
    as (q & Hd & _ & _ & Hf & _).
  - vm_compute. reflexivity.
  - discriminate.
  - discriminate.
  - vm_compute. reflexivity.
  - vm_compute. reflexivity.
  - reflexivity.
  - exists q. by split.
Defined.

(** ** The resource-set cache and the batch lookup *)
Section TruckCache.
Context `{!Externals}.

Ltac run_monad :=
  unfold try_catch, bind, ret, throw, lift, console_warn, redis_get,
    redis_setex, redis_del, count_mint in *.

(** X16: once a non-empty resource set was fetched from the database it
    is served from the cache for the next 300 seconds, whatever the
    database would answer by then, and the key space is not touched; from
    then on the cache no longer has it. *)
Theorem cached_resource_set_served env o env2 o2 (t0 t1 : Z) userId w trucks :
  (TruckFetcher.readCachedTrucks o t0 ("truck_access:" +:+ userId) w).1 = Ok None ->
  planetscale_execute o userId = Ok (Some trucks) ->
  trucks <> [] ->
  dragonfly_setex_fault o = None ->
  dragonfly_get_fault o2 = None ->
  JSON_parse (JSON_stringify trucks) = Ok trucks ->
  JSON_stringify trucks <> "" ->
  let w1 := (TruckFetcher.getTruckRegistrationNos env o t0 userId w).2 in
  (TruckFetcher.getTruckRegistrationNos env2 o2 t1 userId w1).1
  = (if Z.ltb t1 (t0 + 300 * 1000) then Ok trucks
     else (TruckFetcher.fetchTrucks env2 o2 t1 userId
             ("truck_access:" +:+ userId) w1).1)
  /\ (t1 < t0 + 300 * 1000 ->
      cache (TruckFetcher.getTruckRegistrationNos env2 o2 t1 userId w1).2
      = cache w1).
Proof.
  intros Hmiss Hdb Hne Hset Hget Hjson Hstr w1.
  pose proof (resource_set_key env o t0 userId w trucks Hmiss Hdb Hne Hset) as Hc.
  fold w1 in Hc.
  assert (Htr : truthy (Some (JSON_stringify trucks)) = true).
  { simpl. by destruct (String.eqb_spec (JSON_stringify trucks) ""). }
  assert (Hread : TruckFetcher.readCachedTrucks o2 t1 ("truck_access:" +:+ userId) w1
                  = (Ok (if Z.ltb t1 (t0 + 300 * 1000) then Some trucks else None), w1)).
  { unfold TruckFetcher.readCachedTrucks, Dragonfly.getToken. run_monad.
    rewrite Hget. unfold Redis.get. rewrite Hc, lookup_insert_eq.
    cbn [Redis.expires_at Redis.value].
    destruct (Z.ltb t1 (t0 + 300 * 1000)); [| done].
    rewrite !Htr. by rewrite Hjson. }
  unfold TruckFetcher.getTruckRegistrationNos, bind. rewrite Hread.
  destruct (Z.ltb_spec t1 (t0 + 300 * 1000)); simpl.
  - split; done.
  - split; [done | lia].
Qed.

(** X17: invalidating the cached resource set never throws; when the
    delete goes through, the next read of the cache finds nothing, so the
    fetcher asks the database again; when it fails, the key space is left
    as it was. *)
Theorem invalidate_forces_refetch fault e o now userId w :
  (TruckFetcher.invalidateTruckAccessCache fault userId w).1 = Ok tt
  /\ (TruckFetcher.readCachedTrucks o now ("truck_access:" +:+ userId)
        (TruckFetcher.invalidateTruckAccessCache None userId w).2).1 = Ok None
  /\ cache (TruckFetcher.invalidateTruckAccessCache None userId w).2
     = delete ("tinybird_token:truck_access:" +:+ userId) (cache w)
  /\ cache (TruckFetcher.invalidateTruckAccessCache (Some e) userId w).2
     = cache w.
Proof.
  split_and!.
  - unfold TruckFetcher.invalidateTruckAccessCache, Dragonfly.deleteToken.
    run_monad. by destruct fault.
  - unfold TruckFetcher.invalidateTruckAccessCache, Dragonfly.deleteToken,
      TruckFetcher.readCachedTrucks, Dragonfly.getToken. run_monad. simpl.
    destruct (dragonfly_get_fault o); [done |]. simpl.
    unfold Redis.get, Redis.del. by rewrite lookup_delete_eq.
  - reflexivity.
  - reflexivity.
Qed.

End TruckCache.

Section Batch.

Lemma mark_all_lookup (b : bool) (l : list string) : forall (m : gmap string bool) k,
  foldl (fun acc x => <[x := b]> acc) m l !! k
  = if bool_decide (k ∈ l) then Some b else m !! k.
Proof.
  induction l as [| x l IH]; intros m k; cbn [foldl].
  { by rewrite bool_decide_eq_false_2 by apply not_elem_of_nil. }
  rewrite IH. destruct (decide (k = x)) as [-> | Hne].
  - rewrite lookup_insert_eq.
    rewrite (bool_decide_eq_true_2 (x ∈ x :: l)) by left.
    by case_bool_decide.
  - rewrite lookup_insert_ne by done.
    assert (Hiff : k ∈ x :: l <-> k ∈ l).
    { rewrite elem_of_cons. split; [intros [? | ?]; done | by right]. }
    by rewrite (bool_decide_ext _ _ Hiff).
Qed.

(** X18: for a non-empty list of trucks the batch check answers, for every
    truck asked about, whether the database returned it ([true]) or not
    ([false]); an empty list is answered with the empty map without any
    query, and a failing query is rethrown as a [PlanetScaleError]. *)
Theorem batch_access_map batch_execute userId nos :
  PlanetScale.userHasMultipleTruckAccess batch_execute userId [] = Ok ∅
  /\ (nos <> [] ->
      match batch_execute userId nos with
      | Ok rows =>
          exists m,
            PlanetScale.userHasMultipleTruckAccess batch_execute userId nos = Ok m
            /\ forall k,
                 m !! k = if bool_decide (k ∈ default [] rows) then Some true
                          else if bool_decide (k ∈ nos) then Some false
                          else None
      | Throw e =>
          PlanetScale.userHasMultipleTruckAccess batch_execute userId nos
          = Throw (PlanetScaleError ("Failed to batch check truck access: "
                                     +:+ message_or_unknown e))
      end).
Proof.
  split; [reflexivity |]. intros Hne.
  unfold PlanetScale.userHasMultipleTruckAccess.
  destruct nos as [| n nos]; [done |]. cbn [length Nat.eqb].
  destruct (batch_execute userId (n :: nos)) as [rows | e]; [| done].
  destruct rows as [found |]; simpl default.
  - destruct found as [| f found].
    + eexists. split; [reflexivity |]. intros k.
      rewrite mark_all_lookup, lookup_empty.
      by rewrite (bool_decide_eq_false_2 (k ∈ [])) by apply not_elem_of_nil.
    + eexists. split; [reflexivity |]. intros k.
      by rewrite !mark_all_lookup, lookup_empty.
  - eexists. split; [reflexivity |]. intros k.
    rewrite mark_all_lookup, lookup_empty.
    by rewrite (bool_decide_eq_false_2 (k ∈ [])) by apply not_elem_of_nil.
Qed.

End Batch.

Lemma cached_resource_set_served_witness :
  (TruckFetcher.getTruckRegistrationNos (H := csv_externals) demo_env
     faulty_oracle 1000 "u1"
     (TruckFetcher.getTruckRegistrationNos (H := csv_externals) demo_env
        (demo_oracle ["REG1"]) 0 "u1" empty_world).2).1
  = Ok ["REG1"].
Proof.
  apply (@cached_resource_set_served csv_externals demo_env (demo_oracle ["REG1"])
           demo_env faulty_oracle 0 1000 "u1" empty_world ["REG1"]);
    vm_compute; (reflexivity || discriminate).
Defined.

Lemma batch_access_map_witness :
  exists m,
    PlanetScale.userHasMultipleTruckAccess demo_batch "u1" ["REG1"; "REG2"] = Ok m
    /\ m !! "REG1" = Some true /\ m !! "REG2" = Some false /\ m !! "REG3" = None.
Proof.
  destruct (batch_access_map demo_batch "u1" ["REG1"; "REG2"]) as [_ H].
  destruct (H ltac:(discriminate)) as (m & Hm & Hk).
  exists m. split; [exact Hm |]. rewrite !Hk. vm_compute. by split_and!.
Defined.

(** ** The CORS origin callback (index.ts) *)
Section CorsProps.

Lemma split_comma_nonempty s : Cors.split_comma s <> [].
Proof.
  destruct s as [| c s]; simpl; [done |].
  destruct (Ascii.eqb c ","); [done |]. by destruct (Cors.split_comma s).
Qed.

Lemma comma_free_cons c s :
  includes "," (String c s) = false ->
  Ascii.eqb c "," = false /\ includes "," s = false.
Proof.
  change (includes "," (String c s))
    with (if String.prefix "," (String c s) then true else includes "," s).
  cbn [String.prefix]. destruct (ascii_dec "," c) as [<- | Hne].
  - by destruct s.
  - intros Hs. split; [| done]. apply Ascii.eqb_neq. congruence.
Qed.

(** Splitting what follows a comma-free prefix. *)
Lemma split_comma_app s t :
  includes "," s = false ->
  Cors.split_comma (s +:+ "," +:+ t) = s :: Cors.split_comma t.
Proof.
  induction s as [| c s IH]; intros Hs; [reflexivity |].
  apply comma_free_cons in Hs as [Hc Hs].
  change (String c s +:+ "," +:+ t) with (String c (s +:+ "," +:+ t)).
  cbn [Cors.split_comma]. by rewrite Hc, IH.
Qed.

Lemma split_comma_whole s :
  includes "," s = false -> Cors.split_comma s = [s].
Proof.
  induction s as [| c s IH]; intros Hs; [reflexivity |].
  apply comma_free_cons in Hs as [Hc Hs]. cbn [Cors.split_comma].
  by rewrite Hc, IH.
Qed.

(** [split(',')] undoes [join(',')] on comma-free items. *)
Lemma split_comma_concat (l : list string) :
  l <> [] -> Forall (fun s => includes "," s = false) l ->
  Cors.split_comma (String.concat "," l) = l.
Proof.
  induction l as [| s l IH]; [done |]. intros _ Hall.
  apply Forall_cons in Hall as [Hs Hall].
  destruct l as [| s' l]; [by apply split_comma_whole |].
  cbn [String.concat]. rewrite split_comma_app by done. f_equal.
  by apply IH.
Qed.

(** X19: for a request with an [Origin] header and [ALLOWED_ORIGINS] the
    comma-joined list of origins, the callback echoes the origin in
    development, and otherwise echoes it exactly when it is one of the
    listed origins and answers [null] when it is not; with
    [ALLOWED_ORIGINS] unset every such origin is answered [null] outside
    development. *)
Theorem cors_allows_listed_origins env (allowed : list string) (origin : string) :
  allowed <> [] ->
  Forall (fun s => includes "," s = false) allowed ->
  origin <> "" ->
  Cors.origin_callback env (Some (String.concat "," allowed)) origin
  = (if TruckFetcher.is_development env then Some origin
     else if bool_decide (origin ∈ allowed) then Some origin else None)
  /\ Cors.origin_callback env None origin
     = (if TruckFetcher.is_development env then Some origin else None).
Proof.
  intros Hne Hfree Ho.
  assert (Ht : truthy (Some origin) = true).
  { simpl. by destruct (String.eqb_spec origin ""). }
  unfold Cors.origin_callback. rewrite Ht, split_comma_concat by done.
  cbn [negb]. split; [done |].
  destruct (TruckFetcher.is_development env); [done |].
  by rewrite bool_decide_eq_false_2 by apply not_elem_of_nil.
Qed.

Lemma cors_allows_listed_origins_witness :
  Cors.origin_callback demo_env (Some "https://a.example,https://b.example")
    "https://b.example" = Some "https://b.example".
Proof.
  apply (cors_allows_listed_origins demo_env
           ["https://a.example"; "https://b.example"] "https://b.example").
  - discriminate.
  - repeat constructor.
  - discriminate.
Defined.

End CorsProps.

(** ** The metrics collector (metrics.ts) *)
Section MetricsProps.

Lemma brace_free_cons c s :
  includes "{" (String c s) = false ->
  Ascii.eqb c "{" = false /\ includes "{" s = false.
Proof.
  change (includes "{" (String c s))
    with (if String.prefix "{" (String c s) then true else includes "{" s).
  cbn [String.prefix]. destruct (ascii_dec "{" c) as [<- | Hne].
  - by destruct s.
  - intros Hs. split; [| done]. apply Ascii.eqb_neq. congruence.
Qed.

Lemma until_brace_app name rest :
  includes "{" name = false ->
  Metrics.until_brace (name +:+ "{" +:+ rest) = name.
Proof.
  induction name as [| c name IH]; intros Hn; [reflexivity |].
  apply brace_free_cons in Hn as [Hc Hn].
  change (String c name +:+ "{" +:+ rest)
    with (String c (name +:+ "{" +:+ rest)).
  cbn [Metrics.until_brace]. by rewrite Hc, IH.
Qed.

Lemma until_brace_whole name :
  includes "{" name = false -> Metrics.until_brace name = name.
Proof.
  induction name as [| c name IH]; intros Hn; [reflexivity |].
  apply brace_free_cons in Hn as [Hc Hn]. cbn [Metrics.until_brace].
  by rewrite Hc, IH.
Qed.

(** X20: the metric name is recovered from a metric key: whatever the
    labels, [getMetricName] of the key [getMetricKey] builds for a
    non-empty name without brace is that name. *)
Theorem metric_name_round_trip before name labels :
  includes "{" name = false -> name <> "" ->
  Metrics.getMetricName (Metrics.getMetricKey before name labels) = name.
Proof.
  intros Hfree Hne.
  assert (Hplain : Metrics.getMetricName name = name).
  { unfold Metrics.getMetricName. rewrite until_brace_whole by done.
    by destruct name. }
  unfold Metrics.getMetricKey. destruct labels as [entries |]; [| done].
  destruct (Nat.eqb (length entries) 0); [done |].
  unfold Metrics.getMetricName. rewrite until_brace_app by done.
  by destruct name.
Qed.

Lemma metric_name_round_trip_witness :
  Metrics.getMetricName
    (Metrics.getMetricKey String.leb "porteight_proxy_requests_total"
       (Some [("status", "200"); ("method", "GET")]))
  = "porteight_proxy_requests_total".
Proof.
  apply (metric_name_round_trip String.leb "porteight_proxy_requests_total");
    [reflexivity | discriminate].
Defined.

Lemma count_up_to_mono (values : list Z) (a b : Z) :
  a <= b ->
  (length (filter (fun v => (v <= a)%Z) values)
   <= length (filter (fun v => (v <= b)%Z) values))%nat.
Proof.
  intros Hab. induction values as [| v values IH]; [done |].
  rewrite !filter_cons. repeat case_decide; simpl; lia.
Qed.

(** X21: the histogram buckets are cumulative: along the ten limits, in
    increasing order, the counts never decrease, and no count exceeds the
    number of recorded values (the count of the [+Inf] bucket). *)
Theorem histogram_buckets_are_cumulative (values : list Z) :
  map fst (Metrics.calculateHistogramBuckets values) = Metrics.histogramBuckets
  /\ StronglySorted (fun x y => x.1 < y.1 /\ (x.2 <= y.2)%nat)
                    (Metrics.calculateHistogramBuckets values)
  /\ Forall (fun x => (x.2 <= length values)%nat)
            (Metrics.calculateHistogramBuckets values).
Proof.
  unfold Metrics.calculateHistogramBuckets, Metrics.histogramBuckets.
  cbn [map]. split_and!.
  - reflexivity.
  - repeat (apply SSorted_cons || apply SSorted_nil || apply List.Forall_cons
            || apply List.Forall_nil || split);
      cbn [fst snd]; (lia || (apply count_up_to_mono; lia)).
  - repeat (apply List.Forall_cons; [apply length_filter |]).
    apply List.Forall_nil.
Qed.

Lemma incrementCounter_lookup before name labels value m :
  Metrics.counters (Metrics.incrementCounter before name value labels m)
    !! Metrics.getMetricKey before name labels
  = Some (PrimFloat.add
            (Metrics.or_zero
               (default PrimFloat.zero
                  (Metrics.counters m !! Metrics.getMetricKey before name labels)))
            value).
Proof.
  unfold Metrics.incrementCounter. cbn [Metrics.counters].
  rewrite lookup_insert_eq. by destruct (Metrics.counters m !! _).
Qed.

(** X22: increments of one counter add up from left to right in the
    arithmetic of doubles, a running total that is falsy ([0], [-0] or
    [NaN]) counting as [0]: after incrementing the counter of a name and
    label set by each value of a non-empty list, the counter is present and
    reads that sum, started from what it read before (zero if it was
    absent); and no other counter, gauge or histogram has changed. *)
Theorem counter_accumulates before name labels (vs : list PrimFloat.float) :
  forall m,
    let key := Metrics.getMetricKey before name labels in
    let m' := foldl (fun acc v => Metrics.incrementCounter before name v labels acc)
                    m vs in
    Metrics.counters m' !! key
    = match vs with
      | [] => Metrics.counters m !! key
      | _ :: _ =>
          Some (foldl (fun total v => PrimFloat.add (Metrics.or_zero total) v)
                      (default PrimFloat.zero (Metrics.counters m !! key)) vs)
      end
    /\ (forall k, k <> key -> Metrics.counters m' !! k = Metrics.counters m !! k)
    /\ Metrics.gauges m' = Metrics.gauges m
    /\ Metrics.histograms m' = Metrics.histograms m.
Proof.
  induction vs as [| v vs IH]; intros m; cbn zeta; cbn [foldl].
  { by split_and!. }
  destruct (IH (Metrics.incrementCounter before name v labels m))
    as (Hsum & Hother & Hg & Hh).
  cbn zeta in *. split_and!.
  - rewrite Hsum, incrementCounter_lookup. by destruct vs.
  - intros k Hk. rewrite Hother by done.
    unfold Metrics.incrementCounter. cbn [Metrics.counters].
    by rewrite lookup_insert_ne.
  - by rewrite Hg.
  - by rewrite Hh.
Qed.

(** X23: a histogram keeps the recorded values in the order they were
    recorded, a timer records the elapsed time between its start and its
    stop, and recording touches no other histogram, counter or gauge. *)
Theorem histogram_accumulates before name labels (vs : list Z) :
  forall m,
    let key := Metrics.getMetricKey before name labels in
    let m' := foldl (fun acc v => Metrics.recordHistogram before name v labels acc)
                    m vs in
    default [] (Metrics.histograms m' !! key)
    = default [] (Metrics.histograms m !! key) ++ vs
    /\ (forall k, k <> key ->
          Metrics.histograms m' !! k = Metrics.histograms m !! k)
    /\ Metrics.counters m' = Metrics.counters m
    /\ Metrics.gauges m' = Metrics.gauges m
    /\ (forall startTime now,
          Metrics.histograms
            (Metrics.stopTimer before name labels startTime now m') !! key
          = Some (default [] (Metrics.histograms m !! key)
                  ++ vs ++ [now - startTime])).
Proof.
  induction vs as [| v vs IH]; intros m; cbn zeta; cbn [foldl].
  { split_and!; try done; [by rewrite app_nil_r |].
    intros startTime now. unfold Metrics.stopTimer, Metrics.recordHistogram.
    cbn [Metrics.histograms]. rewrite lookup_insert_eq.
    by destruct (Metrics.histograms m !! _). }
  destruct (IH (Metrics.recordHistogram before name v labels m))
    as (Hvals & Hother & Hc & Hg & Htimer).
  cbn zeta in *.
  assert (Hrec : default [] (Metrics.histograms
                   (Metrics.recordHistogram before name v labels m)
                   !! Metrics.getMetricKey before name labels)
                 = default [] (Metrics.histograms m
                                 !! Metrics.getMetricKey before name labels)
                   ++ [v]).
  { unfold Metrics.recordHistogram. cbn [Metrics.histograms].
    rewrite lookup_insert_eq. by destruct (Metrics.histograms m !! _). }
  split_and!.
  - rewrite Hvals, Hrec. by rewrite <- app_assoc.
  - intros k Hk. rewrite Hother by done.
    unfold Metrics.recordHistogram. cbn [Metrics.histograms].
    by rewrite lookup_insert_ne.
  - by rewrite Hc.
  - by rewrite Hg.
  - intros startTime now. rewrite Htimer, Hrec. by rewrite <- !app_assoc.
Qed.

Section LabelOrder.
Variable before : string -> string -> bool.
Variable names : list string.
Hypothesis Horders : orders before names.

Lemma orders_total a b :
  a ∈ names -> b ∈ names -> before a b = true \/ before b a = true.
Proof.
  intros Ha Hb. unfold orders in Horders.
  rewrite Forall_forall in Horders. specialize (Horders a Ha).
  rewrite Forall_forall in Horders. by destruct (Horders b Hb) as (? & _).
Qed.

Lemma orders_antisym a b :
  a ∈ names -> b ∈ names -> before a b = true -> before b a = true -> a = b.
Proof.
  intros Ha Hb. unfold orders in Horders.
  rewrite Forall_forall in Horders. specialize (Horders a Ha).
  rewrite Forall_forall in Horders. by destruct (Horders b Hb) as (_ & ? & _).
Qed.

Lemma orders_trans a b c :
  a ∈ names -> b ∈ names -> c ∈ names ->
  before a b = true -> before b c = true -> before a c = true.
Proof.
  intros Ha Hb Hc. unfold orders in Horders.
  rewrite Forall_forall in Horders. specialize (Horders a Ha).
  rewrite Forall_forall in Horders.
  destruct (Horders b Hb) as (_ & _ & Ht).
  rewrite Forall_forall in Ht. exact (Ht c Hc).
Qed.

Lemma sort_insert_perm x l : Metrics.sort_insert before x l ≡ₚ x :: l.
Proof.
  induction l as [| y rest IH]; [done |]. cbn [Metrics.sort_insert].
  destruct (before y.1 x.1); [| done]. rewrite IH. apply Permutation_swap.
Qed.

Lemma sort_labels_perm l : Metrics.sort_labels before l ≡ₚ l.
Proof.
  unfold Metrics.sort_labels.
  assert (H : forall acc,
             foldl (fun sorted x => Metrics.sort_insert before x sorted) acc l
             ≡ₚ l ++ acc).
  { induction l as [| x rest IH]; intros acc; [done |]. cbn [foldl].
    rewrite IH, sort_insert_perm. symmetry. apply Permutation_middle. }
  by rewrite H, app_nil_r.
Qed.

Lemma sort_insert_sorted x l :
  x.1 ∈ names -> Forall (fun y => y.1 ∈ names) l ->
  StronglySorted (by_name before) l -> StronglySorted (by_name before) (Metrics.sort_insert before x l).
Proof.
  intros Hx. induction l as [| y rest IH]; intros Hin Hsorted.
  { repeat constructor. }
  apply Forall_cons in Hin as [Hy Hin].
  apply StronglySorted_inv in Hsorted as [Hrest Hy_le].
  cbn [Metrics.sort_insert]. destruct (before y.1 x.1) eqn:Hyx.
  - constructor; [by apply IH |].
    rewrite sort_insert_perm. by constructor.
  - assert (Hxy : before x.1 y.1 = true).
    { destruct (orders_total x.1 y.1 Hx Hy) as [? | ?]; congruence. }
    constructor; [by constructor |]. constructor; [done |].
    rewrite Forall_forall in Hy_le, Hin. apply Forall_forall. intros z Hz.
    exact (orders_trans x.1 y.1 z.1 Hx Hy (Hin z Hz) Hxy (Hy_le z Hz)).
Qed.

Lemma sort_labels_sorted l :
  Forall (fun y => y.1 ∈ names) l ->
  StronglySorted (by_name before) (Metrics.sort_labels before l).
Proof.
  unfold Metrics.sort_labels.
  assert (H : forall acc,
             Forall (fun y => y.1 ∈ names) l ->
             Forall (fun y => y.1 ∈ names) acc -> StronglySorted (by_name before) acc ->
             StronglySorted (by_name before)
               (foldl (fun sorted x => Metrics.sort_insert before x sorted)
                      acc l)).
  { induction l as [| x rest IH]; intros acc Hl Hacc Hs; [done |].
    apply Forall_cons in Hl as [Hx Hl]. cbn [foldl]. apply IH; [done | |].
    - rewrite sort_insert_perm. by constructor.
    - by apply sort_insert_sorted. }
  intros Hl. apply H; [done | constructor | constructor].
Qed.

End LabelOrder.

Lemma unique_names_unique_entries (l : list (string * string)) x y :
  NoDup l.*1 -> x ∈ l -> y ∈ l -> x.1 = y.1 -> x = y.
Proof.
  induction l as [| a l IH]; intros Hnd Hx Hy Hxy.
  { by apply elem_of_nil in Hx. }
  rewrite fmap_cons in Hnd. apply NoDup_cons in Hnd as [Ha Hnd].
  apply elem_of_cons in Hx as [-> | Hx]; apply elem_of_cons in Hy as [-> | Hy].
  - done.
  - exfalso. apply Ha. rewrite Hxy. by apply list_elem_of_fmap_2.
  - exfalso. apply Ha. rewrite <- Hxy. by apply list_elem_of_fmap_2.
  - by apply IH.
Qed.

(** X24: the metric key does not depend on the order in which the labels
    were given: two label records with the same entries, in any order, give
    the same key, provided the label names are distinct and the comparator
    that sorts them is a total order on them. *)
Theorem metric_key_ignores_label_order before name
    (entries entries' : list (string * string)) :
  NoDup entries.*1 -> orders before entries.*1 -> entries ≡ₚ entries' ->
  Metrics.getMetricKey before name (Some entries)
  = Metrics.getMetricKey before name (Some entries').
Proof.
  intros Hnd Horders Hperm.
  assert (Hnames : forall l, l ≡ₚ entries ->
                     Forall (fun y : string * string => y.1 ∈ entries.*1) l).
  { intros l Hl. apply Forall_forall. intros y Hy. rewrite Hl in Hy.
    by apply list_elem_of_fmap_2. }
  assert (Hsame : Metrics.sort_labels before entries
                  = Metrics.sort_labels before entries').
  { apply (StronglySorted_unique_strong (by_name before)).
    - intros x1 x2 H1 H2 H12 H21. rewrite sort_labels_perm in H1, H2.
      rewrite <- Hperm in H2.
      apply (unique_names_unique_entries entries); try done.
      apply (orders_antisym before entries.*1 Horders); try done;
        by apply list_elem_of_fmap_2.
    - apply (sort_labels_sorted before entries.*1 Horders). by apply Hnames.
    - apply (sort_labels_sorted before entries.*1 Horders).
      by apply Hnames.
    - by rewrite !sort_labels_perm. }
  unfold Metrics.getMetricKey. rewrite Hsame.
  by rewrite (Permutation_length Hperm).
Qed.

Lemma metric_key_ignores_label_order_witness :
  Metrics.getMetricKey String.leb "porteight_proxy_requests_total"
    (Some [("status", "200"); ("method", "GET"); ("path", "/v0/pipes")])
  = Metrics.getMetricKey String.leb "porteight_proxy_requests_total"
    (Some [("path", "/v0/pipes"); ("status", "200"); ("method", "GET")]).
Proof.
  apply metric_key_ignores_label_order.
  - apply (bool_decide_unpack _). by vm_compute.
  - apply (bool_decide_unpack _). by vm_compute.
  - apply (bool_decide_unpack _). by vm_compute.
Defined.

End MetricsProps.

(** The counters round as doubles do: past [2^53] an increment by one is
    lost. *)
Section Doubles.
Import PrimFloat.

Example counter_rounds_past_2_53 :
  Metrics.counters
    (foldl (fun acc v => Metrics.incrementCounter String.leb "requests" v None acc)
           Metrics.empty [9007199254740992%float; 1%float])
    !! "requests"
  = Some 9007199254740992%float.
Proof. vm_compute. reflexivity. Qed.

End Doubles.
